(** * JASSv2: the Elias-delta integer codec

    A shallow embedding of [compress_integer_elias_delta::encode] and
    [compress_integer_elias_delta::decode]
    (source/compress_integer_elias_delta.cpp) and of [maths::floor_log2]
    (source/maths.h), with the properties of the codec stated over it.

    Conventions.
    - [uint64_t], [size_t] and [unsigned long] are 64-bit (LP64), [uint32_t]
      is 32-bit, [int] is 32-bit two's complement; every value is a [Z] and
      the wrap-around of each operation is written out.
    - Memory is a list of bytes that starts at the pointer the function is
      given and extends as far as the process may touch; 64-bit accesses are
      little-endian and need not be aligned (x86-64).
    - What C++ leaves undefined (a shift by the width of the type or more,
      an access outside the memory) is an explicit [Undefined] outcome. *)

From Stdlib Require Import ZArith List Lia Bool.
From Stdlib Require String DecimalString.
From coqutil Require Import Byte Word.LittleEndianList Z.bitblast.
Import ListNotations.
Local Open Scope Z_scope.

(** ** Outcomes *)

Inductive undefined : Set :=
| ShiftTooWide      (* shift count not below the width of the shifted type *)
| OutOfBounds       (* access outside the memory of the process *)
| LoopBound.        (* a loop of the model ran out of iterations *)

Inductive outcome (A : Type) : Type :=
| Ok (a : A)
| Undefined (u : undefined).

Arguments Ok {A} a.
Arguments Undefined {A} u.

Definition bind {A B : Type} (o : outcome A) (k : A -> outcome B) : outcome B :=
  match o with
  | Ok a => k a
  | Undefined u => Undefined u
  end.

Notation "x <- e ;; k" := (bind e (fun x => k))
  (at level 61, e at next level, right associativity).
Notation "' p <- e ;; k" := (bind e (fun p => k))
  (at level 61, p pattern, e at next level, right associativity).

Definition omap {A B : Type} (f : A -> B) (o : outcome A) : outcome B :=
  x <- o ;; Ok (f x).

(** ** Machine integers *)

Module Machine.

Definition u64 (x : Z) : Z := x mod 2 ^ 64.
Definition u32 (x : Z) : Z := x mod 2 ^ 32.

(** Conversion to [int]. *)
Definition s32 (x : Z) : Z := (x + 2 ^ 31) mod 2 ^ 32 - 2 ^ 31.

(** [a << c] and [a >> c] on a 64-bit unsigned operand. *)
Definition shl_u64 (a c : Z) : outcome Z :=
  if (0 <=? c) && (c <? 64) then Ok (u64 (Z.shiftl a c)) else Undefined ShiftTooWide.

Definition shr_u64 (a c : Z) : outcome Z :=
  if (0 <=? c) && (c <? 64) then Ok (Z.shiftr a c) else Undefined ShiftTooWide.

(** [a << c] on an [int] operand; the result is an [int].  A count of 31
    moves the 1 of [1 << 31] into the sign bit, as C++14 and later have
    it. *)
Definition shl_int (a c : Z) : outcome Z :=
  if (0 <=? c) && (c <? 32) then Ok (s32 (Z.shiftl a c)) else Undefined ShiftTooWide.

(** [~x] on a 32-bit int, and on a 64-bit unsigned operand. *)
Definition not_int (x : Z) : Z := Z.lnot x.
Definition not_u64 (x : Z) : Z := u64 (Z.lnot x).

(** The BMI1 intrinsics of [<immintrin.h>], after Intel's description:
    [_tzcnt_u64] counts the trailing zero bits and is 64 at zero;
    [_bextr_u64 (src, start, len)] uses the low 8 bits of [start] and of
    [len] and returns [len] bits of [src] from bit [start]. *)
Fixpoint pos_tz (p : positive) : Z :=
  match p with
  | xO q => 1 + pos_tz q
  | _ => 0
  end.

Definition _tzcnt_u64 (x : Z) : Z :=
  match x with
  | Zpos p => pos_tz p
  | _ => 64
  end.

Definition _bextr_u64 (src start len : Z) : Z :=
  Z.land (Z.shiftr src (start mod 256)) (Z.ones (len mod 256)).

End Machine.
Import Machine.

(** ** Memory *)

Definition memory := list byte.

Definition in_bounds (m : memory) (addr len : Z) : bool :=
  (0 <=? addr) && (0 <=? len) && (addr + len <=? Z.of_nat (length m)).

(** The 8 bytes at [addr] as a little-endian word, and their replacement
    by the 8 bytes of [v]. *)
Definition peek64 (m : memory) (addr : Z) : Z :=
  le_combine (firstn 8 (skipn (Z.to_nat addr) m)).

Definition poke64 (m : memory) (addr v : Z) : memory :=
  firstn (Z.to_nat addr) m ++ le_split 8 v ++ skipn (Z.to_nat addr + 8) m.

(** [*(uint64_t * )(base + addr)] read and written. *)
Definition load64 (m : memory) (addr : Z) : outcome Z :=
  if in_bounds m addr 8 then Ok (peek64 m addr) else Undefined OutOfBounds.

Definition store64 (m : memory) (addr v : Z) : outcome memory :=
  if in_bounds m addr 8 then Ok (poke64 m addr v) else Undefined OutOfBounds.

(** [*address |= pattern]. *)
Definition or64 (m : memory) (addr pattern : Z) : outcome memory :=
  w <- load64 m addr ;;
  store64 m addr (Z.lor w pattern).

(** [memset(base, 0, len)]. *)
Definition memset0 (m : memory) (len : Z) : outcome memory :=
  if in_bounds m 0 len
  then Ok (repeat Byte.x00 (Z.to_nat len) ++ skipn (Z.to_nat len) m)
  else Undefined OutOfBounds.

(** ** maths::floor_log2 *)

Module maths.

(** Modelled from the spec: the table [maths::floor_log2_answer] is
    defined in maths.cpp, which is not part of the sources at hand.  The
    spec uses [floor_log2] as the floor of the binary logarithm (the bit
    length minus one), so entry [i] is the floor of log2 [i] for
    [1 <= i <= 255]; entry 0 is 0. *)
Definition floor_log2_answer : list Z :=
  Eval cbv in map (fun i => Z.log2 (Z.of_nat i)) (seq 0 256).

(** One iteration of the do-while loop per unit of [fuel]; a [size_t]
    has 8 bytes, so 8 iterations empty [x]. *)
Fixpoint floor_log2_loop (fuel : nat) (x mult : Z) : outcome Z :=
  match fuel with
  | O => Undefined LoopBound
  | S fuel =>
      let sum := u64 (nth (Z.to_nat (Z.land x 255)) floor_log2_answer 0 + mult) in
      let mult := u64 (mult + 8) in
      let x := Z.shiftr x 8 in
      if x =? 0 then Ok sum else floor_log2_loop fuel x mult
  end.

Definition floor_log2 (x : Z) : outcome Z := floor_log2_loop 8 x 0.

End maths.

(** ** compress_integer_elias_delta *)

Module compress_integer_elias_delta.

(** The body of the loop of [encode]: one integer [v] is written at bit
    [into] of [m]; the result is the memory and the new [into]. *)
Definition encode_value (m : memory) (into v : Z) : outcome (memory * Z) :=
  fl <- maths.floor_log2 v ;;
  let n := u32 (u64 (fl + 1)) in
  fu <- maths.floor_log2 n ;;
  let unary := u32 fu in
  let into := u64 (into + unary) in
  bit <- shl_int 1 unary ;;
  let zig_zag := u32 (u32 (Z.shiftl (Z.land n (u32 (not_int bit))) 1) + 1) in
  let shift := into mod 8 in
  pattern <- shl_u64 zig_zag shift ;;
  m <- or64 m (into / 8) pattern ;;
  let into := u64 (into + u32 (unary + 1)) in
  let shift := into mod 8 in
  top <- shl_u64 1 (u32 (n - 1)) ;;
  pattern <- shl_u64 (Z.land v (not_u64 top)) shift ;;
  m <- or64 m (into / 8) pattern ;;
  Ok (m, u64 (into + u32 (n - 1))).

Fixpoint encode_loop (m : memory) (into : Z) (source : list Z) : outcome (memory * Z) :=
  match source with
  | [] => Ok (m, into)
  | v :: source =>
      '(m, into) <- encode_value m into v ;;
      encode_loop m into source
  end.

(** [encode (encoded, encoded_buffer_length, source, source_integers)]:
    [m] is the memory at [encoded]; the result is that memory after the
    call and the returned byte count. *)
Definition encode (m : memory) (encoded_buffer_length : Z) (source : list Z)
  : outcome (memory * Z) :=
  m <- memset0 m encoded_buffer_length ;;
  '(m, into) <- encode_loop m 0 source ;;
  Ok (m, u64 (into + 7) / 8).

(** *** decode *)

(** The locals of [decode] that live across iterations.  [source] counts
    64-bit words from the pointer the call was given. *)
Record decoder : Set := mk_decoder {
  bits_used : Z;
  unary : Z;
  value : Z;
  source : Z
}.

Definition set_bits_used (d : decoder) (b : Z) : decoder :=
  mk_decoder b (unary d) (value d) (source d).
Definition set_unary (d : decoder) (u : Z) : decoder :=
  mk_decoder (bits_used d) u (value d) (source d).
Definition set_value (d : decoder) (v : Z) : decoder :=
  mk_decoder (bits_used d) (unary d) v (source d).

(** [value = *source++]. *)
Definition fetch (m : memory) (d : decoder) : outcome decoder :=
  w <- load64 m (8 * source d) ;;
  Ok (mk_decoder (bits_used d) (unary d) w (source d + 1)).

(** The function-local [static uint32_t total] at the head of the loop
    body lives across calls: the branch on [total == 15] only declares a
    local that is never read, then the counter is incremented. *)
Definition count_iteration (total : Z) : Z :=
  let total := if total =? 15 then total else total in
  u32 (total + 1).

(** "get the width of the width". *)
Definition scan_unary (m : memory) (d : decoder) : outcome decoder :=
  if value d =? 0 then
    let d := set_unary d (u64 (64 - bits_used d)) in
    d <- fetch m d ;;
    let d := set_bits_used d (_tzcnt_u64 (value d)) in
    v <- shr_u64 (value d) (bits_used d) ;;
    let d := set_value d v in
    Ok (set_unary d (u64 (unary d + bits_used d)))
  else
    let d := set_unary d (_tzcnt_u64 (value d)) in
    let d := set_bits_used d (u64 (bits_used d + unary d)) in
    v <- shr_u64 (value d) (unary d) ;;
    Ok (set_value d v).

(** "get the zig-zag encoded length of the integer and un-zig-zag it":
    the result is the decoder state and [binary]. *)
Definition read_length (m : memory) (d : decoder) : outcome (decoder * Z) :=
  if 64 <? u64 (u64 (bits_used d + unary d) + 1) then
    let k := u64 (unary d - u64 (64 - bits_used d)) in
    binary <- shl_u64 (value d) k ;;
    d <- fetch m d ;;
    let extra := _bextr_u64 (value d) 0 (u32 (u64 (k + 1))) in
    let binary := Z.lor binary extra in
    let d := set_bits_used d (u64 (k + 1)) in
    half <- shr_u64 binary 1 ;;
    top <- shl_u64 1 (unary d) ;;
    let binary := Z.lor half top in
    v <- shr_u64 (value d) (bits_used d) ;;
    Ok (set_value d v, binary)
  else
    let before := _bextr_u64 (value d) 0 (u32 (u64 (unary d + 1))) in
    half <- shr_u64 before 1 ;;
    top <- shl_u64 1 (unary d) ;;
    let binary := Z.lor half top in
    let d := set_bits_used d (u64 (bits_used d + u64 (unary d + 1))) in
    v <- shr_u64 (value d) (u64 (unary d + 1)) ;;
    Ok (set_value d v, binary).

(** "get the binary value that is encoded": the result is the decoder
    state and the value stored through [decoded], an [integer] of
    [integer_bits] bits.  The typedef [integer] comes from
    compress_integer.h, which is not part of the sources at hand, so its
    width is a parameter: 64 covers the domain of the specification, 32
    is the other width an index of document ids would use. *)
Definition read_value (integer_bits : Z) (m : memory) (d : decoder) (binary : Z)
  : outcome (decoder * Z) :=
  let integer x := x mod 2 ^ integer_bits in
  if 64 <? u64 (bits_used d + binary) then
    let k := u64 (binary - u64 (64 - bits_used d)) in
    high <- shl_u64 (value d) k ;;
    let decoded := integer high in
    d <- fetch m d ;;
    let low_bits := _bextr_u64 (value d) 0 (u32 k) in
    top <- shl_int 1 (u64 (binary - 1)) ;;
    let decoded := integer (Z.lor decoded (Z.lor low_bits (u64 top))) in
    let d := set_bits_used d k in
    v <- shr_u64 (value d) (bits_used d) ;;
    Ok (set_value d v, decoded)
  else
    top <- shl_int 1 (u64 (binary - 1)) ;;
    let decoded := integer (Z.lor (_bextr_u64 (value d) 0 (u32 binary)) (u64 top)) in
    let d := set_bits_used d (u64 (bits_used d + u64 (binary - 1))) in
    v <- shr_u64 (value d) (u64 (binary - 1)) ;;
    Ok (set_value d v, decoded).

(** The three steps that produce one integer. *)
Definition decode_integer (integer_bits : Z) (m : memory) (d : decoder)
  : outcome (decoder * Z) :=
  d <- scan_unary m d ;;
  '(d, binary) <- read_length m d ;;
  read_value integer_bits m d binary.

(** The body of the loop of [decode], with the counter. *)
Definition decode_value (integer_bits : Z) (m : memory) (total : Z) (d : decoder)
  : outcome (Z * decoder * Z) :=
  let total := count_iteration total in
  '(d, x) <- decode_integer integer_bits m d ;;
  Ok (total, d, x).

Fixpoint decode_loop (integer_bits : Z) (m : memory) (total : Z) (d : decoder) (n : nat)
  : outcome (Z * decoder * list Z) :=
  match n with
  | O => Ok (total, d, [])
  | S n =>
      '(total, d, x) <- decode_value integer_bits m total d ;;
      '(total, d, xs) <- decode_loop integer_bits m total d n ;;
      Ok (total, d, x :: xs)
  end.

(** [decode (decoded, integers_to_decode, source, source_length)] entered
    with the counter at [total]: [m] is the memory at [source]; the
    result is the counter after the call and the integers stored at
    [decoded [0 .. integers_to_decode)]. *)
Definition decode_from (total : Z) (integer_bits : Z) (integers_to_decode : nat)
  (m : memory) (source_length : Z) : outcome (Z * list Z) :=
  w <- load64 m 0 ;;
  '(total, _, out) <- decode_loop integer_bits m total (mk_decoder 0 0 w 0) integers_to_decode ;;
  Ok (total, out).

(** The first call of the process: the counter starts at 0. *)
Definition decode (integer_bits : Z) (integers_to_decode : nat)
  (m : memory) (source_length : Z) : outcome (list Z) :=
  omap snd (decode_from 0 integer_bits integers_to_decode m source_length).

End compress_integer_elias_delta.
Import compress_integer_elias_delta.

(** ** encode over any table of floor_log2 *)

(** [maths::floor_log2] and [encode] once more, statement for statement,
    with the table [maths::floor_log2_answer] left open: maths.cpp, which
    holds its entries, is not part of the sources at hand, and entry 0 is
    what [encode] looks up for an integer 0. *)
Module tabled.

Section Table.

Variable floor_log2_answer : list Z.

Fixpoint floor_log2_loop (fuel : nat) (x mult : Z) : outcome Z :=
  match fuel with
  | O => Undefined LoopBound
  | S fuel =>
      let sum := u64 (nth (Z.to_nat (Z.land x 255)) floor_log2_answer 0 + mult) in
      let mult := u64 (mult + 8) in
      let x := Z.shiftr x 8 in
      if x =? 0 then Ok sum else floor_log2_loop fuel x mult
  end.

Definition floor_log2 (x : Z) : outcome Z := floor_log2_loop 8 x 0.

Definition encode_value (m : memory) (into v : Z) : outcome (memory * Z) :=
  fl <- floor_log2 v ;;
  let n := u32 (u64 (fl + 1)) in
  fu <- floor_log2 n ;;
  let unary := u32 fu in
  let into := u64 (into + unary) in
  bit <- shl_int 1 unary ;;
  let zig_zag := u32 (u32 (Z.shiftl (Z.land n (u32 (not_int bit))) 1) + 1) in
  let shift := into mod 8 in
  pattern <- shl_u64 zig_zag shift ;;
  m <- or64 m (into / 8) pattern ;;
  let into := u64 (into + u32 (unary + 1)) in
  let shift := into mod 8 in
  top <- shl_u64 1 (u32 (n - 1)) ;;
  pattern <- shl_u64 (Z.land v (not_u64 top)) shift ;;
  m <- or64 m (into / 8) pattern ;;
  Ok (m, u64 (into + u32 (n - 1))).

Fixpoint encode_loop (m : memory) (into : Z) (source : list Z) : outcome (memory * Z) :=
  match source with
  | [] => Ok (m, into)
  | v :: source =>
      '(m, into) <- encode_value m into v ;;
      encode_loop m into source
  end.

Definition encode (m : memory) (encoded_buffer_length : Z) (source : list Z)
  : outcome (memory * Z) :=
  m <- memset0 m encoded_buffer_length ;;
  '(m, into) <- encode_loop m 0 source ;;
  Ok (m, u64 (into + 7) / 8).

End Table.

End tabled.

(** Modelled from the spec: what the specification gives of the table
    that maths.cpp defines: 256 entries of type [uint8_t], entry [i] the
    floor of log2 [i] for [1 <= i <= 255].  Entry 0 is left open, as the
    logarithm of 0 is undefined. *)
Definition floor_table (answer : list Z) : bool :=
  (length answer =? 256)%nat
  && forallb (fun e => (0 <=? e) && (e <? 256)) answer
  && forallb (fun i => nth i answer 0 =? Z.log2 (Z.of_nat i)) (seq 1 255).

(** The entries 1 to 255 of [maths.floor_log2_answer] after [zero_entry]
    as entry 0. *)
Definition table_with (zero_entry : Z) : list Z :=
  zero_entry :: tl maths.floor_log2_answer.

(** ** The codeword of the specification *)

(** These definitions follow the words of the specification, not the
    code: [L], the bit length of [N]; [u], the unary quantity; the length
    of the codeword of [N] in bits, and of a sequence of codewords. *)
Definition bit_length (N : Z) : Z := Z.log2 N + 1.
Definition unary_length (N : Z) : Z := Z.log2 (bit_length N).
Definition codeword_bits (N : Z) : Z := 2 * unary_length N + 1 + (bit_length N - 1).

Fixpoint stream_bits (seq : list Z) : Z :=
  match seq with
  | [] => 0
  | N :: seq => codeword_bits N + stream_bits seq
  end.

(** A valid integer of the codec, as wide as a machine word allows; the
    domain of the specification, 1 to 2^63 - 1, lies inside. *)
Definition valid (N : Z) : Prop := 1 <= N < 2 ^ 64.

Definition zeros (n : nat) : memory := repeat Byte.x00 n.

(** The codeword bit by bit, again after the specification: the length
    field is [L] without its leading 1, moved up one bit, with the low bit
    set; the value field is [N] without its leading 1.  The codeword is
    laid out low bit first: [u] zero bits, the length field on [u + 1]
    bits, the value field on [L - 1] bits. *)
Definition length_field (N : Z) : Z := 2 * (bit_length N - 2 ^ unary_length N) + 1.
Definition value_field (N : Z) : Z := N - 2 ^ (bit_length N - 1).

Definition codeword (N : Z) : Z :=
  Z.lor (Z.shiftl (length_field N) (unary_length N))
        (Z.shiftl (value_field N) (2 * unary_length N + 1)).

Fixpoint stream_code (seq : list Z) : Z :=
  match seq with
  | [] => 0
  | N :: seq => Z.lor (codeword N) (Z.shiftl (stream_code seq) (codeword_bits N))
  end.

(** Integers whose value field, moved by up to 7 bits, still fits the
    64-bit pattern of the encoder. *)
Definition fits (N : Z) : Prop := 1 <= N < 2 ^ 58.

(** Integers whose leading bit the [1 << (binary - 1)] of the decoder, an
    [int] shift, restores as a positive number. *)
Definition small (N : Z) : Prop := 1 <= N < 2 ^ 31.

(** What a word holds at the start of a codeword: [u] zero bits, a length
    field [a] on [u + 1] bits, a value field [b] on [l] bits, and the rest
    [r] of the stream. *)
Definition packed (u l a b r : Z) : Z :=
  Z.lor (Z.lor (Z.shiftl a u) (Z.shiftl b (2 * u + 1))) (Z.shiftl r (2 * u + 1 + l)).

(** ** Memory as one little-endian number *)

(** Bit [i] of the stream at the base pointer is bit [i mod 8] of byte
    [i / 8], that is bit [i] of the memory read as one little-endian
    number. *)
Definition mem_int (m : memory) : Z := le_combine m.
Definition mem_bit (m : memory) (i : Z) : bool := Z.testbit (mem_int m) i.

(** ** What one iteration of encode does *)

(** The pure effect of [*address |= pattern] in bounds, and of the two
    statements that lay [bits] into the stream at bit [pos]. *)
Definition or64_at (m : memory) (addr pattern : Z) : memory :=
  poke64 m addr (Z.lor (peek64 m addr) pattern).

Definition write_field (m : memory) (pos bits : Z) : memory :=
  or64_at m (pos / 8) (u64 (Z.shiftl bits (pos mod 8))).

(** The two patterns of the encoder, as the code computes them. *)
Definition zig_zag_of (N : Z) : Z :=
  let n := bit_length N in
  u32 (u32 (Z.shiftl (Z.land n (u32 (not_int (s32 (Z.shiftl 1 (unary_length N)))))) 1) + 1).

Definition value_field_of (N : Z) : Z :=
  Z.land N (not_u64 (u64 (Z.shiftl 1 (bit_length N - 1)))).

(** ** Running the codec *)

(** A 0 in the input, replaced by [N]. *)
Definition zero_as (N v : Z) : Z := if v =? 0 then N else v.

(** [count] bits of the stream at the base pointer, from bit [from]. *)
Definition stream_at (m : memory) (from : Z) (count : nat) : list bool :=
  map (fun i => mem_bit m (from + Z.of_nat i)) (seq 0 count).

(** The sequence is encoded into the memory [m], all of it given as the
    destination, and the buffer is decoded with the count of the sequence
    and the byte length that [encode] returned. *)
Definition round_trip (integer_bits : Z) (m : memory) (source : list Z) : outcome (list Z) :=
  '(m, source_length) <- encode m (Z.of_nat (length m)) source ;;
  decode integer_bits (length source) m source_length.

(** Two outcomes that are undefined for the same reason, or hold related
    results. *)
Definition related {A B : Type} (R : A -> B -> Prop) (o1 : outcome A) (o2 : outcome B) : Prop :=
  match o1, o2 with
  | Ok a, Ok b => R a b
  | Undefined u1, Undefined u2 => u1 = u2
  | _, _ => False
  end.

(** Two memories of one size that hold the same first [cap] bytes. *)
Definition agree (cap : nat) (m1 m2 : memory) : Prop :=
  length m1 = length m2 /\ firstn cap m1 = firstn cap m2.

(** ** The memory encode touches *)

(** The last 64-bit access of [encode] is the OR of the last value field:
    it starts at the byte of the bit where that field begins, and ends 8
    bytes later. *)
Definition footprint (source : list Z) : Z :=
  match source with
  | [] => 0
  | _ => (stream_bits source - (bit_length (last source 1) - 1)) / 8 + 8
  end.

(** The same bound, followed along the loop from the cursor [into]. *)
Fixpoint reach (into : Z) (source : list Z) : Z :=
  match source with
  | [] => 0
  | N :: source =>
      Z.max ((into + 2 * unary_length N + 1) / 8 + 8) (reach (into + codeword_bits N) source)
  end.

(** Integers of 32 bits. *)
Definition word32 (N : Z) : Prop := 1 <= N < 2 ^ 32.

(** ** The rest of class maths (source/maths.h) *)

Module maths_rest.

Section Order.

(** The templates [max] and [min] take any [TYPE] with its [operator>=]
    and [operator<=]; the overloads with three parameters are [max3] and
    [min3]. *)
Variable TYPE : Type.
Variable ge : TYPE -> TYPE -> bool.
Variable le : TYPE -> TYPE -> bool.

Definition max (first second : TYPE) : TYPE :=
  if ge first second then first else second.

Definition max3 (first second third : TYPE) : TYPE :=
  max (max first second) third.

Definition min (first second : TYPE) : TYPE :=
  if le first second then first else second.

Definition min3 (first second third : TYPE) : TYPE :=
  min (min first second) third.

End Order.

(** [ceiling_log2] is the loop of [floor_log2] over the table
    [ceiling_log2_answer], which is defined in maths.cpp and is a parameter
    here. *)
Fixpoint ceiling_log2_loop (ceiling_log2_answer : list Z) (fuel : nat) (x mult : Z)
  : outcome Z :=
  match fuel with
  | O => Undefined LoopBound
  | S fuel =>
      let sum := u64 (nth (Z.to_nat (Z.land x 255)) ceiling_log2_answer 0 + mult) in
      let mult := u64 (mult + 8) in
      let x := Z.shiftr x 8 in
      if x =? 0 then Ok sum else ceiling_log2_loop ceiling_log2_answer fuel x mult
  end.

Definition ceiling_log2 (ceiling_log2_answer : list Z) (x : Z) : outcome Z :=
  ceiling_log2_loop ceiling_log2_answer 8 x 0.

(** A table of 256 entries of type [uint8_t]. *)
Definition byte_table (answer : list Z) : Prop :=
  length answer = 256%nat /\ Forall (fun e => 0 <= e < 256) answer.

End maths_rest.

(** ** evaluate_mean_reciprocal_rank::compute
    (source/evaluate_mean_reciprocal_rank.cpp) *)

Module evaluate_mean_reciprocal_rank.

(** What [compute] returns: [1.0 / static_cast<double>(which)], kept as
    its denominator [which], or 0. *)
Inductive reciprocal_rank : Set :=
| one_over (which : Z)
| zero.

Section Compute.

(** [relevant query_id result] stands for
    [assessments.find(query_id, result).score != 0]; the class [evaluate]
    that holds the assessments is not part of the sources. *)
Variable relevant : String.string -> String.string -> bool.

(** The loop of [compute], entered with the counter at [which]. *)
Fixpoint compute_from (which : Z) (query_id : String.string)
  (results_list : list String.string) (depth : Z) : reciprocal_rank :=
  match results_list with
  | [] => zero
  | result :: results_list =>
      if relevant query_id result then one_over which
      else
        let which := u64 (which + 1) in
        if depth <? which then zero
        else compute_from which query_id results_list depth
  end.

Definition compute (query_id : String.string) (results_list : list String.string)
  (depth : Z) : reciprocal_rank :=
  compute_from 1 query_id results_list depth.

End Compute.

Import String.

(** The results list of the unit test, and the assessments its comment
    describes: for query 1 the second document is relevant, no other. *)
Definition unittest_results_list : list String.string :=
  ["AP880217-0026"; "AP880216-0139"; "AP880212-0161"; "AP880216-0169";
   "AP880217-0030"]%string.

Definition unittest_query : String.string := "1".

Definition unittest_relevant (query_id result : String.string) : bool :=
  String.eqb query_id "1" && String.eqb result "AP880216-0139".

End evaluate_mean_reciprocal_rank.

(** ** class printer (tools/JASSv1_to_human.cpp) *)

Module printer.
Import String.

(** [std::cout << x] for an unsigned integer. *)
Definition decimal (x : Z) : String.string :=
  DecimalString.NilZero.string_of_uint (N.to_uint (Z.to_N x)).

Record printer : Set := mk_printer { impact : Z }.

Definition set_score (this : printer) (impact : Z) : printer := mk_printer impact.

(** [std::cout] is the text printed so far.  The parameter [impact] of
    [add_rsv] hides the member of that name. *)
Definition add_rsv (this : printer) (cout : String.string) (document impact : Z)
  : String.string :=
  String.append cout
    (String.append "<" (String.append (decimal document)
       (String.append "," (String.append (decimal impact) ">")))).

(** [each [which]] after [_mm256_storeu_si256]: the 32-bit lane [which] of
    the 256-bit vector. *)
Definition each (document_ids : Z) (which : Z) : Z :=
  Z.land (Z.shiftr document_ids (32 * which)) (Z.ones 32).

Definition push_back (this : printer) (cout : String.string) (document_ids : Z)
  : String.string :=
  fold_left
    (fun cout which =>
       if each document_ids which =? 0 then cout
       else
         String.append cout
           (String.append "<" (String.append (decimal (each document_ids which))
              (String.append "," (String.append (decimal (impact this)) ">")))))
    (map Z.of_nat (seq 0 8)) cout.

End printer.

(** The position of the first element that satisfies [p]. *)
Fixpoint first_index {A : Type} (p : A -> bool) (l : list A) : option nat :=
  match l with
  | [] => None
  | a :: l => if p a then Some 0%nat else option_map S (first_index p l)
  end.

(** * Properties *)

(** ** Machine arithmetic *)

Lemma u64_small x : 0 <= x < 2 ^ 64 -> u64 x = x.
Proof. intros H. unfold u64. now apply Z.mod_small. Qed.

Lemma u32_small x : 0 <= x < 2 ^ 32 -> u32 x = x.
Proof. intros H. unfold u32. now apply Z.mod_small. Qed.

Lemma shl_u64_ok a c : 0 <= c < 64 -> shl_u64 a c = Ok (u64 (Z.shiftl a c)).
Proof.
  intros [H0 H1]. unfold shl_u64.
  apply Z.leb_le in H0. apply Z.ltb_lt in H1. now rewrite H0, H1.
Qed.

Lemma shr_u64_ok a c : 0 <= c < 64 -> shr_u64 a c = Ok (Z.shiftr a c).
Proof.
  intros [H0 H1]. unfold shr_u64.
  apply Z.leb_le in H0. apply Z.ltb_lt in H1. now rewrite H0, H1.
Qed.

Ltac shift_in_byte :=
  match goal with
  | |- 0 <= ?x mod 8 < 64 => pose proof (Z.mod_pos_bound x 8 eq_refl); lia
  end.

Lemma shl_int_ok a c : 0 <= c < 32 -> shl_int a c = Ok (s32 (Z.shiftl a c)).
Proof.
  intros [H0 H1]. unfold shl_int.
  apply Z.leb_le in H0. apply Z.ltb_lt in H1. now rewrite H0, H1.
Qed.

(** ** Memory accesses *)

Lemma in_bounds_true m addr len :
  0 <= addr -> 0 <= len -> addr + len <= Z.of_nat (length m) -> in_bounds m addr len = true.
Proof.
  intros Ha Hl Hb. unfold in_bounds.
  apply Z.leb_le in Ha, Hl, Hb. now rewrite Ha, Hl, Hb.
Qed.

Lemma length_poke64 m addr v :
  0 <= addr -> addr + 8 <= Z.of_nat (length m) -> length (poke64 m addr v) = length m.
Proof.
  intros Ha Hb. unfold poke64.
  rewrite !length_app, length_firstn, length_le_split, length_skipn. lia.
Qed.

Lemma or64_ok m addr pattern :
  0 <= addr -> addr + 8 <= Z.of_nat (length m) ->
  or64 m addr pattern = Ok (poke64 m addr (Z.lor (peek64 m addr) pattern)).
Proof.
  intros Ha Hb. unfold or64, load64, store64.
  rewrite in_bounds_true by lia. reflexivity.
Qed.

Lemma length_or64 m addr pattern m' :
  or64 m addr pattern = Ok m' -> length m' = length m.
Proof.
  unfold or64, load64, store64.
  destruct (in_bounds m addr 8) eqn:E; cbn [bind]; [|discriminate].
  intros [= <-]. unfold in_bounds in E.
  apply andb_prop in E as [E E3]. apply andb_prop in E as [E1 E2].
  apply Z.leb_le in E1, E3. apply length_poke64; lia.
Qed.

Lemma length_memset0 m len m' : memset0 m len = Ok m' -> length m' = length m.
Proof.
  unfold memset0. destruct (in_bounds m 0 len) eqn:E; [|discriminate].
  intros [= <-]. unfold in_bounds in E.
  apply andb_prop in E as [E E3]. apply andb_prop in E as [E1 E2].
  apply Z.leb_le in E2, E3.
  rewrite length_app, repeat_length, length_skipn. lia.
Qed.

(** ** floor_log2 is the floor of the binary logarithm *)

Lemma floor_log2_answer_nth i :
  (i < 256)%nat -> nth i maths.floor_log2_answer 0 = Z.log2 (Z.of_nat i).
Proof.
  intros Hi.
  pose proof (map_nth (fun i => Z.log2 (Z.of_nat i)) (seq 0 256) 0%nat i) as H.
  rewrite seq_nth in H by exact Hi. exact H.
Qed.

Lemma floor_log2_loop_correct fuel : forall x mult,
  0 <= x < 2 ^ (8 * Z.of_nat fuel) -> (0 < fuel)%nat ->
  0 <= mult -> mult + 8 * Z.of_nat fuel <= 64 ->
  maths.floor_log2_loop fuel x mult = Ok (Z.log2 x + mult).
Proof.
  induction fuel as [|fuel IH]; intros x mult Hx Hf Hm Hb; [lia|].
  cbn [maths.floor_log2_loop].
  destruct (Z.shiftr x 8 =? 0) eqn:E.
  - apply Z.eqb_eq in E. rewrite Z.shiftr_div_pow2 in E by lia.
    assert (Hs : 0 <= x < 256).
    { change (2 ^ 8) with 256 in E. split; [lia|].
      destruct (Z.lt_ge_cases x 256) as [|Hge]; [assumption|].
      pose proof (Z.div_le_mono 256 x 256 ltac:(lia) Hge) as Hd.
      change (256 / 256) with 1 in Hd. lia. }
    change 255 with (Z.ones 8). rewrite Z.land_ones by lia.
    change (2 ^ 8) with 256. rewrite Z.mod_small by lia.
    rewrite floor_log2_answer_nth by lia. rewrite Z2Nat.id by lia.
    f_equal. apply u64_small.
    assert (0 <= Z.log2 x) by apply Z.log2_nonneg.
    assert (Z.log2 x < 8).
    { destruct (Z.eq_dec x 0) as [->|]; [cbn; lia|].
      apply Z.log2_lt_pow2; lia. }
    lia.
  - apply Z.eqb_neq in E.
    assert (Hpos : 0 < Z.shiftr x 8).
    { pose proof (Z.shiftr_nonneg x 8) as [_ Hn]. specialize (Hn (proj1 Hx)). lia. }
    assert (Hx0 : 0 < x).
    { destruct (Z.eq_dec x 0) as [->|]; [now rewrite Z.shiftr_0_l in Hpos|lia]. }
    destruct fuel as [|fuel'].
    { exfalso. change (8 * Z.of_nat 1) with 8 in Hx.
      rewrite Z.shiftr_div_pow2 in Hpos by lia.
      rewrite Z.div_small in Hpos by lia. lia. }
    rewrite IH.
    + f_equal. rewrite Z.log2_shiftr by lia. rewrite u64_small by lia.
      assert (8 <= Z.log2 x).
      { apply Z.log2_le_pow2; [lia|].
        rewrite Z.shiftr_div_pow2 in Hpos by lia. change (2 ^ 8) with 256 in *.
        destruct (Z.lt_ge_cases x 256); [|assumption].
        rewrite Z.div_small in Hpos by lia. lia. }
      lia.
    + rewrite Z.shiftr_div_pow2 by lia. split; [apply Z.div_pos; lia|].
      apply Z.div_lt_upper_bound; [lia|].
      rewrite <- Z.pow_add_r by lia.
      replace (8 + 8 * Z.of_nat (S fuel')) with (8 * Z.of_nat (S (S fuel'))) by lia.
      apply Hx.
    + lia.
    + rewrite u64_small by lia. lia.
    + rewrite u64_small by lia. lia.
Qed.

Lemma floor_log2_correct x : 0 <= x < 2 ^ 64 -> maths.floor_log2 x = Ok (Z.log2 x).
Proof.
  intros Hx. unfold maths.floor_log2.
  rewrite floor_log2_loop_correct; [now rewrite Z.add_0_r | exact Hx | lia | lia | cbn; lia].
Qed.

(** ** The bit cursor of encode *)

Lemma length_write_field m pos bits :
  0 <= pos -> pos / 8 + 8 <= Z.of_nat (length m) ->
  length (write_field m pos bits) = length m.
Proof.
  intros Hp Hb. unfold write_field, or64_at. apply length_poke64; [|lia].
  apply Z.div_pos; lia.
Qed.

Lemma bit_length_bounds N : valid N -> 1 <= bit_length N <= 64.
Proof.
  intros [H1 H2]. unfold bit_length.
  pose proof (Z.log2_nonneg N).
  assert (Z.log2 N < 64) by (apply Z.log2_lt_pow2; lia). lia.
Qed.

Lemma unary_length_bounds N : valid N -> 0 <= unary_length N <= 6.
Proof.
  intros HN. pose proof (bit_length_bounds N HN) as HL. unfold unary_length.
  pose proof (Z.log2_nonneg (bit_length N)).
  assert (Z.log2 (bit_length N) < 7) by (apply Z.log2_lt_pow2; lia). lia.
Qed.

Lemma codeword_bits_bounds N : valid N -> 1 <= codeword_bits N <= 76.
Proof.
  intros HN. pose proof (bit_length_bounds N HN). pose proof (unary_length_bounds N HN).
  unfold codeword_bits. lia.
Qed.

Lemma stream_bits_nonneg seq : Forall valid seq -> 0 <= stream_bits seq.
Proof.
  induction 1 as [|N seq HN _ IH]; cbn [stream_bits]; [lia|].
  pose proof (codeword_bits_bounds N HN). lia.
Qed.

Lemma encode_value_eq m into N :
  valid N -> 0 <= into -> into + codeword_bits N < 2 ^ 64 ->
  (into + codeword_bits N) / 8 + 8 <= Z.of_nat (length m) ->
  encode_value m into N =
    Ok (write_field (write_field m (into + unary_length N) (zig_zag_of N))
          (into + 2 * unary_length N + 1) (value_field_of N),
        into + codeword_bits N).
Proof.
  intros HN Hi Hw Hroom.
  pose proof (bit_length_bounds N HN) as HL.
  pose proof (unary_length_bounds N HN) as HU.
  assert (Hcw : codeword_bits N = 2 * unary_length N + 1 + (bit_length N - 1)) by reflexivity.
  unfold encode_value.
  rewrite floor_log2_correct by (unfold valid in HN; lia). cbn [bind].
  fold (bit_length N).
  rewrite (u64_small (bit_length N)) by lia.
  rewrite (u32_small (bit_length N)) by lia.
  rewrite floor_log2_correct by lia. cbn [bind].
  fold (unary_length N).
  rewrite (u32_small (unary_length N)) by lia.
  rewrite (u32_small (unary_length N + 1)) by lia.
  rewrite (u32_small (bit_length N - 1)) by lia.
  rewrite (u64_small (into + unary_length N)) by lia.
  rewrite (u64_small (into + unary_length N + (unary_length N + 1))) by lia.
  rewrite u64_small by lia.
  rewrite shl_int_ok by lia. cbn [bind].
  rewrite shl_u64_ok by shift_in_byte. cbn [bind].
  assert (Hd : forall a b, 0 <= a <= b -> a / 8 <= b / 8)
    by (intros a b Hab; apply Z.div_le_mono; lia).
  assert (H1 : (into + unary_length N) / 8 <= (into + codeword_bits N) / 8)
    by (apply Hd; lia).
  assert (H2 : (into + unary_length N + (unary_length N + 1)) / 8
               <= (into + codeword_bits N) / 8) by (apply Hd; lia).
  rewrite or64_ok by (try apply Z.div_pos; lia). cbn [bind].
  rewrite shl_u64_ok by lia. cbn [bind].
  rewrite shl_u64_ok by shift_in_byte. cbn [bind].
  rewrite or64_ok.
  - cbn [bind].
    replace (into + 2 * unary_length N + 1) with (into + unary_length N + (unary_length N + 1)) by lia.
    replace (into + codeword_bits N)
      with (into + unary_length N + (unary_length N + 1) + (bit_length N - 1)) by lia.
    reflexivity.
  - apply Z.div_pos; lia.
  - rewrite length_poke64; try lia. apply Z.div_pos; lia.
Qed.

Lemma length_encode_value m into N m' into' :
  encode_value m into N = Ok (m', into') -> length m' = length m.
Proof.
  unfold encode_value.
  destruct (maths.floor_log2 N) as [fl|]; cbn [bind]; [|discriminate].
  destruct (maths.floor_log2 _) as [fu|]; cbn [bind]; [|discriminate].
  destruct (shl_int _ _) as [b|]; cbn [bind]; [|discriminate].
  destruct (shl_u64 _ _) as [p1|]; cbn [bind]; [|discriminate].
  destruct (or64 m _ _) as [m1|] eqn:E1; cbn [bind]; [|discriminate].
  destruct (shl_u64 _ _) as [t|]; cbn [bind]; [|discriminate].
  destruct (shl_u64 _ _) as [p2|]; cbn [bind]; [|discriminate].
  destruct (or64 m1 _ _) as [m2|] eqn:E2; cbn [bind]; [|discriminate].
  intros [= <- _]. apply length_or64 in E1, E2. congruence.
Qed.

Lemma encode_loop_returns : forall seq m into,
  Forall valid seq -> 0 <= into -> into + stream_bits seq < 2 ^ 64 ->
  (into + stream_bits seq) / 8 + 8 <= Z.of_nat (length m) ->
  exists m', encode_loop m into seq = Ok (m', into + stream_bits seq)
             /\ length m' = length m.
Proof.
  induction seq as [|N seq IH]; intros m into Hv Hi Hw Hroom; cbn [encode_loop stream_bits] in *.
  - exists m. now rewrite Z.add_0_r.
  - inversion Hv as [|? ? HN Hv']; subst.
    pose proof (codeword_bits_bounds N HN) as Hc.
    pose proof (stream_bits_nonneg seq Hv') as Hs.
    assert (Hle : (into + codeword_bits N) / 8 <= (into + (codeword_bits N + stream_bits seq)) / 8)
      by (apply Z.div_le_mono; lia).
    pose proof (encode_value_eq m into N HN Hi ltac:(lia) ltac:(lia)) as E.
    rewrite E. cbn [bind].
    apply length_encode_value in E.
    destruct (IH _ (into + codeword_bits N) Hv' ltac:(lia) ltac:(lia)
                ltac:(rewrite E; rewrite <- Z.add_assoc; lia)) as (m' & Em & Hlen).
    exists m'. rewrite Em. split; [f_equal; f_equal; lia | congruence].
Qed.

(** ** OR-writes on the memory read as a number *)

Lemma lor_below a b k : 0 <= a < 2 ^ k -> 0 <= b < 2 ^ k -> 0 <= Z.lor a b < 2 ^ k.
Proof.
  intros Ha Hb.
  destruct (Z.lt_ge_cases k 0) as [Hk|Hk]; [rewrite Z.pow_neg_r in Ha by lia; lia|].
  rewrite <- (Z.mod_small a (2 ^ k)), <- (Z.mod_small b (2 ^ k)) by assumption.
  rewrite <- !Z.land_ones, <- Z.land_lor_distr_l, Z.land_ones by assumption.
  apply Z.mod_pos_bound. apply Z.pow_pos_nonneg; lia.
Qed.

Lemma mem_int_split m (n k : nat) :
  mem_int m =
    Z.lor (le_combine (firstn n m))
      (Z.shiftl (Z.lor (le_combine (firstn k (skipn n m)))
                   (Z.shiftl (le_combine (skipn (n + k) m))
                      (Z.of_nat (length (firstn k (skipn n m))) * 8)))
         (Z.of_nat (length (firstn n m)) * 8)).
Proof.
  unfold mem_int.
  rewrite <- (firstn_skipn n m) at 1. rewrite le_combine_app. do 2 f_equal.
  rewrite <- (firstn_skipn k (skipn n m)) at 1. rewrite le_combine_app.
  now rewrite skipn_skipn, (Nat.add_comm k n).
Qed.

Lemma mem_int_or64_at m addr pattern :
  0 <= addr -> addr + 8 <= Z.of_nat (length m) -> 0 <= pattern < 2 ^ 64 ->
  mem_int (or64_at m addr pattern) = Z.lor (mem_int m) (Z.shiftl pattern (8 * addr)).
Proof.
  intros Ha Hb Hp.
  rewrite (mem_int_split m (Z.to_nat addr) 8).
  unfold or64_at, poke64, peek64, mem_int.
  set (A := firstn (Z.to_nat addr) m).
  set (B := firstn 8 (skipn (Z.to_nat addr) m)).
  set (C := skipn (Z.to_nat addr + 8) m).
  assert (HlA : Z.of_nat (length A) * 8 = 8 * addr)
    by (unfold A; rewrite length_firstn; lia).
  assert (HlB : length B = 8%nat)
    by (unfold B; rewrite length_firstn, length_skipn; lia).
  rewrite !le_combine_app, length_le_split, le_combine_split, HlA, HlB.
  pose proof (le_combine_bound B) as HB. rewrite HlB in HB.
  change (8 * Z.of_nat 8) with 64 in HB. change (Z.of_nat 8 * 8) with 64.
  rewrite (Z.mod_small (Z.lor (le_combine B) pattern)) by (apply lor_below; lia).
  rewrite !Z.shiftl_lor.
  generalize (le_combine A), (Z.shiftl (le_combine B) (8 * addr)),
    (Z.shiftl (Z.shiftl (le_combine C) 64) (8 * addr)), (Z.shiftl pattern (8 * addr)).
  intros a b c p. Z.bitblast.
Qed.

Lemma mem_int_write_field m pos bits :
  0 <= pos -> pos / 8 + 8 <= Z.of_nat (length m) -> 0 <= bits < 2 ^ 57 ->
  mem_int (write_field m pos bits) = Z.lor (mem_int m) (Z.shiftl bits pos).
Proof.
  intros Hp Hb Hbits. unfold write_field.
  pose proof (Z.mod_pos_bound pos 8 eq_refl) as Hs.
  assert (Hsh : 0 <= Z.shiftl bits (pos mod 8) < 2 ^ 64).
  { rewrite Z.shiftl_mul_pow2 by lia. split; [apply Z.mul_nonneg_nonneg; lia|].
    apply Z.lt_le_trans with (2 ^ 57 * 2 ^ (pos mod 8)).
    - apply Z.mul_lt_mono_pos_r; lia.
    - rewrite <- Z.pow_add_r by lia. apply Z.pow_le_mono_r; lia. }
  rewrite mem_int_or64_at; [| apply Z.div_pos; lia | lia | rewrite u64_small; lia].
  rewrite u64_small by lia.
  rewrite Z.shiftl_shiftl by lia. do 2 f_equal.
  pose proof (Z.div_mod pos 8 ltac:(lia)). lia.
Qed.

(** ** The patterns of encode are the fields of the codeword *)

Lemma fits_valid N : fits N -> valid N.
Proof. unfold fits, valid. lia. Qed.

Lemma forallb_range (P : Z -> bool) (n : nat) :
  forallb P (map Z.of_nat (seq 0 n)) = true ->
  forall x, 0 <= x < Z.of_nat n -> P x = true.
Proof.
  intros H x Hx. rewrite forallb_forall in H. apply H.
  apply in_map_iff. exists (Z.to_nat x). split; [lia|]. apply in_seq. lia.
Qed.

Lemma zig_zag_of_length_field N : valid N -> zig_zag_of N = length_field N.
Proof.
  intros HN. pose proof (bit_length_bounds N HN) as HL.
  unfold zig_zag_of, length_field, unary_length.
  generalize dependent (bit_length N). intros L HL.
  pose proof (forallb_range
           (fun L => (L =? 0) ||
              (u32 (u32 (Z.shiftl (Z.land L (u32 (not_int (s32 (Z.shiftl 1 (Z.log2 L)))))) 1) + 1)
               =? 2 * (L - 2 ^ Z.log2 L) + 1)) 65 eq_refl L ltac:(lia)) as H.
  cbv beta in H. apply orb_prop in H as [H|H]; [apply Z.eqb_eq in H; lia|].
  now apply Z.eqb_eq in H.
Qed.

Lemma land_u64 a b : 0 <= a < 2 ^ 64 -> Z.land a (u64 b) = Z.land a b.
Proof.
  intros Ha. unfold u64. rewrite <- Z.land_ones by lia.
  rewrite (Z.land_comm b), Z.land_assoc, (Z.land_ones a) by lia.
  now rewrite Z.mod_small.
Qed.

Lemma value_field_of_value_field N : valid N -> value_field_of N = value_field N.
Proof.
  intros HN. pose proof (bit_length_bounds N HN) as HL.
  unfold value_field_of, value_field, not_u64.
  assert (Hlog : bit_length N - 1 = Z.log2 N) by (unfold bit_length; lia).
  rewrite Hlog. rewrite Z.shiftl_1_l.
  assert (Hk : 0 <= Z.log2 N < 64) by lia.
  rewrite (u64_small (2 ^ Z.log2 N)).
  2:{ split; [apply Z.pow_nonneg; lia|]. apply Z.pow_lt_mono_r; lia. }
  rewrite land_u64 by (unfold valid in HN; lia).
  rewrite <- Z.ldiff_land. symmetry. apply Z.sub_nocarry_ldiff.
  apply Z.bits_inj'. intros i Hi.
  rewrite Z.ldiff_spec, Z.pow2_bits_eqb, Z.bits_0 by lia.
  destruct (Z.eqb_spec (Z.log2 N) i) as [<-|]; [|reflexivity].
  rewrite Z.bit_log2 by (unfold valid in HN; lia). reflexivity.
Qed.

Lemma length_field_bounds N : valid N -> 1 <= length_field N < 2 ^ (unary_length N + 1).
Proof.
  intros HN. pose proof (bit_length_bounds N HN) as HL.
  pose proof (unary_length_bounds N HN) as HU.
  unfold length_field.
  pose proof (Z.log2_spec (bit_length N) ltac:(lia)) as Hs.
  fold (unary_length N) in Hs.
  rewrite Z.pow_succ_r in Hs by lia.
  rewrite Z.pow_add_r, Z.pow_1_r by lia. lia.
Qed.

Lemma value_field_bounds N : valid N -> 0 <= value_field N < 2 ^ (bit_length N - 1).
Proof.
  intros HN. unfold value_field, bit_length.
  pose proof (Z.log2_spec N ltac:(unfold valid in HN; lia)) as Hs.
  pose proof (Z.log2_nonneg N).
  replace (Z.log2 N + 1 - 1) with (Z.log2 N) by lia.
  rewrite Z.pow_succ_r in Hs by lia. lia.
Qed.

Lemma fits_bit_length N : fits N -> bit_length N <= 58.
Proof.
  intros [H1 H2]. unfold bit_length.
  assert (Z.log2 N < 58) by (apply Z.log2_lt_pow2; lia). lia.
Qed.

(** One iteration ORs the codeword of [N] into the stream at bit [into]. *)
Lemma encode_value_effect m into N :
  fits N -> 0 <= into -> into + codeword_bits N < 2 ^ 64 ->
  (into + codeword_bits N) / 8 + 8 <= Z.of_nat (length m) ->
  exists m', encode_value m into N = Ok (m', into + codeword_bits N)
    /\ length m' = length m
    /\ mem_int m' = Z.lor (mem_int m) (Z.shiftl (codeword N) into).
Proof.
  intros HF Hi Hw Hroom. pose proof (fits_valid N HF) as HN.
  pose proof (bit_length_bounds N HN) as HL.
  pose proof (unary_length_bounds N HN) as HU.
  pose proof (fits_bit_length N HF) as HL58.
  pose proof (length_field_bounds N HN) as Hlf.
  pose proof (value_field_bounds N HN) as Hvf.
  assert (Hcw : codeword_bits N = 2 * unary_length N + 1 + (bit_length N - 1)) by reflexivity.
  assert (Hd : forall a b, 0 <= a <= b -> a / 8 <= b / 8)
    by (intros a b Hab; apply Z.div_le_mono; lia).
  pose proof (Hd (into + unary_length N) (into + codeword_bits N) ltac:(lia)) as H1.
  pose proof (Hd (into + 2 * unary_length N + 1) (into + codeword_bits N) ltac:(lia)) as H2.
  eexists. split; [apply encode_value_eq; assumption|].
  rewrite zig_zag_of_length_field, value_field_of_value_field by assumption.
  assert (Hlen1 : length (write_field m (into + unary_length N) (length_field N)) = length m)
    by (apply length_write_field; lia).
  split.
  - rewrite length_write_field; [assumption | lia | rewrite Hlen1; lia].
  - rewrite mem_int_write_field; [| lia | rewrite Hlen1; lia |].
    + rewrite mem_int_write_field; [| lia | lia |].
      * unfold codeword. rewrite Z.shiftl_lor, !Z.shiftl_shiftl by lia.
        rewrite <- Z.lor_assoc. do 3 f_equal; lia.
      * split; [lia|]. apply Z.lt_le_trans with (2 ^ (unary_length N + 1)); [lia|].
        apply Z.pow_le_mono_r; lia.
    + split; [lia|]. apply Z.lt_le_trans with (2 ^ (bit_length N - 1)); [lia|].
      apply Z.pow_le_mono_r; lia.
Qed.

(** The loop ORs the codewords of the sequence, back to back. *)
Lemma encode_loop_effect : forall seq m into,
  Forall fits seq -> 0 <= into -> into + stream_bits seq < 2 ^ 64 ->
  (into + stream_bits seq) / 8 + 8 <= Z.of_nat (length m) ->
  exists m', encode_loop m into seq = Ok (m', into + stream_bits seq)
    /\ length m' = length m
    /\ mem_int m' = Z.lor (mem_int m) (Z.shiftl (stream_code seq) into).
Proof.
  induction seq as [|N seq IH]; intros m into Hv Hi Hw Hroom; cbn [encode_loop stream_bits stream_code] in *.
  - exists m. rewrite Z.add_0_r, Z.shiftl_0_l, Z.lor_0_r. auto.
  - inversion Hv as [|? ? HF Hv']; subst.
    pose proof (codeword_bits_bounds N (fits_valid N HF)) as Hc.
    assert (Hs : 0 <= stream_bits seq).
    { apply stream_bits_nonneg. eapply Forall_impl; [|exact Hv']. apply fits_valid. }
    assert (Hle : (into + codeword_bits N) / 8 <= (into + (codeword_bits N + stream_bits seq)) / 8)
      by (apply Z.div_le_mono; lia).
    destruct (encode_value_effect m into N HF Hi ltac:(lia) ltac:(lia)) as (m1 & E1 & Hl1 & Hm1).
    rewrite E1. cbn [bind].
    destruct (IH m1 (into + codeword_bits N) Hv' ltac:(lia) ltac:(lia)
                ltac:(rewrite Hl1; rewrite <- Z.add_assoc; lia)) as (m' & Em & Hlen & Hm).
    exists m'. rewrite Em. split; [f_equal; f_equal; lia|].
    split; [congruence|].
    rewrite Hm, Hm1, Z.shiftl_lor, Z.shiftl_shiftl by lia.
    rewrite <- Z.lor_assoc. do 3 f_equal. lia.
Qed.

Lemma mem_bit_memset0 m cap m0 i :
  memset0 m cap = Ok m0 -> 0 <= i ->
  mem_bit m0 i = if i <? 8 * cap then false else mem_bit m i.
Proof.
  unfold memset0. destruct (in_bounds m 0 cap) eqn:E; [|discriminate].
  intros [= <-] Hi. unfold in_bounds in E.
  apply andb_prop in E as [E E3]. apply andb_prop in E as [_ E2].
  apply Z.leb_le in E2, E3.
  unfold mem_bit, mem_int.
  rewrite <- (firstn_skipn (Z.to_nat cap) m) at 2.
  rewrite !le_combine_app, le_combine_0, repeat_length, length_firstn.
  replace (Z.of_nat (Init.Nat.min (Z.to_nat cap) (length m)) * 8) with (8 * cap) by lia.
  replace (Z.of_nat (Z.to_nat cap) * 8) with (8 * cap) by lia.
  rewrite !Z.lor_spec, Z.bits_0.
  destruct (Z.ltb_spec i (8 * cap)) as [Hlt|Hge].
  - now rewrite Z.shiftl_spec_low.
  - cbn [orb]. pose proof (le_combine_bound (firstn (Z.to_nat cap) m)) as Hb.
    rewrite length_firstn in Hb.
    replace (8 * Z.of_nat (Init.Nat.min (Z.to_nat cap) (length m))) with (8 * cap) in Hb by lia.
    rewrite <- (Z.mod_small _ _ Hb), Z.mod_pow2_bits_high by lia. reflexivity.
Qed.

(** What [encode] does on integers below 2^58, for any capacity: the
    capacity bounds the zero fill and nothing else. *)
Lemma encode_effect m cap seq :
  Forall fits seq -> 0 <= cap <= Z.of_nat (length m) ->
  stream_bits seq + 7 < 2 ^ 64 ->
  stream_bits seq / 8 + 8 <= Z.of_nat (length m) ->
  exists m', encode m cap seq = Ok (m', (stream_bits seq + 7) / 8)
    /\ length m' = length m
    /\ forall i, 0 <= i ->
         mem_bit m' i = (if i <? 8 * cap then false else mem_bit m i)
                        || Z.testbit (stream_code seq) i.
Proof.
  intros Hv Hcap Hw Hroom. unfold encode.
  destruct (memset0 m cap) as [m0|] eqn:E0.
  2:{ unfold memset0 in E0. rewrite in_bounds_true in E0 by lia. discriminate. }
  cbn [bind]. pose proof (length_memset0 _ _ _ E0) as Hl0.
  assert (Hs : 0 <= stream_bits seq).
  { apply stream_bits_nonneg. eapply Forall_impl; [|exact Hv]. apply fits_valid. }
  destruct (encode_loop_effect seq m0 0 Hv ltac:(lia) ltac:(lia)
              ltac:(rewrite Hl0; exact Hroom)) as (m' & E & Hlen & Hm).
  rewrite E. cbn [bind]. rewrite Z.add_0_l, u64_small by lia.
  exists m'. split; [reflexivity|]. split; [congruence|].
  intros i Hi. unfold mem_bit at 1. rewrite Hm, Z.lor_spec, Z.shiftl_0_r.
  fold (mem_bit m0 i). now rewrite (mem_bit_memset0 m cap m0 i E0 Hi).
Qed.

(** The byte count [encode] returns, for all integers of a machine word. *)
Lemma encode_returns m cap seq :
  Forall valid seq -> 0 <= cap <= Z.of_nat (length m) ->
  stream_bits seq + 7 < 2 ^ 64 ->
  (seq <> [] -> stream_bits seq / 8 + 8 <= Z.of_nat (length m)) ->
  exists m', encode m cap seq = Ok (m', (stream_bits seq + 7) / 8)
    /\ length m' = length m.
Proof.
  intros Hv Hcap Hw Hroom. unfold encode.
  destruct (memset0 m cap) as [m0|] eqn:E0.
  2:{ unfold memset0 in E0. rewrite in_bounds_true in E0 by lia. discriminate. }
  cbn [bind]. pose proof (length_memset0 _ _ _ E0) as Hl0.
  destruct seq as [|N seq].
  - exists m0. split; [reflexivity | exact Hl0].
  - pose proof (stream_bits_nonneg _ Hv) as Hs.
    destruct (encode_loop_returns (N :: seq) m0 0 Hv ltac:(lia) ltac:(lia)
                ltac:(rewrite Hl0; apply Hroom; discriminate)) as (m' & E & Hl).
    rewrite E. cbn [bind]. rewrite Z.add_0_l, u64_small by lia.
    exists m'. split; [reflexivity | congruence].
Qed.

(** ** The table loop of maths, for any table *)

Lemma nth_byte_table answer i :
  Forall (fun e => 0 <= e < 256) answer -> 0 <= nth i answer 0 < 256.
Proof.
  intros H. revert i. induction H as [|e answer He _ IH]; intros [|i]; cbn [nth]; try lia.
  apply IH.
Qed.

Lemma ceiling_log2_loop_top answer fuel : forall x mult,
  Forall (fun e => 0 <= e < 256) answer ->
  0 <= x < 2 ^ (8 * Z.of_nat fuel) -> (0 < fuel)%nat ->
  0 <= mult -> mult + 8 * Z.of_nat fuel <= 64 ->
  maths_rest.ceiling_log2_loop answer fuel x mult
  = Ok (nth (Z.to_nat (x / 2 ^ (8 * (Z.log2 x / 8)))) answer 0
        + 8 * (Z.log2 x / 8) + mult).
Proof.
  induction fuel as [|fuel IH]; intros x mult Ht Hx Hf Hm Hb; [lia|].
  cbn [maths_rest.ceiling_log2_loop].
  destruct (Z.shiftr x 8 =? 0) eqn:E.
  - apply Z.eqb_eq in E. rewrite Z.shiftr_div_pow2 in E by lia.
    assert (Hs : 0 <= x < 256).
    { change (2 ^ 8) with 256 in E. split; [lia|].
      destruct (Z.lt_ge_cases x 256) as [|Hge]; [assumption|].
      pose proof (Z.div_le_mono 256 x 256 ltac:(lia) Hge) as Hd.
      change (256 / 256) with 1 in Hd. lia. }
    assert (Hk : Z.log2 x / 8 = 0).
    { apply Z.div_small. split; [apply Z.log2_nonneg|].
      destruct (Z.eq_dec x 0) as [->|]; [cbn; lia|]. apply Z.log2_lt_pow2; lia. }
    rewrite Hk. change (2 ^ (8 * 0)) with 1. rewrite Z.div_1_r.
    change 255 with (Z.ones 8). rewrite Z.land_ones by lia.
    change (2 ^ 8) with 256. rewrite Z.mod_small by lia.
    pose proof (nth_byte_table answer (Z.to_nat x) Ht).
    f_equal. rewrite u64_small by lia. lia.
  - apply Z.eqb_neq in E.
    assert (Hpos : 0 < Z.shiftr x 8).
    { pose proof (Z.shiftr_nonneg x 8) as [_ Hn]. specialize (Hn (proj1 Hx)). lia. }
    assert (Hx256 : 256 <= x).
    { rewrite Z.shiftr_div_pow2 in Hpos by lia. change (2 ^ 8) with 256 in Hpos.
      destruct (Z.lt_ge_cases x 256); [|assumption].
      rewrite Z.div_small in Hpos by lia. lia. }
    destruct fuel as [|fuel'].
    { exfalso. change (2 ^ (8 * Z.of_nat 1)) with 256 in Hx. lia. }
    assert (Hlog : 8 <= Z.log2 x) by (apply Z.log2_le_pow2; lia).
    rewrite IH.
    + f_equal. rewrite Z.log2_shiftr by lia. rewrite u64_small by lia.
      rewrite Z.max_r by lia.
      replace (Z.log2 x - 8) with (Z.log2 x + (-1) * 8) by lia.
      rewrite Z.div_add by lia.
      rewrite Z.shiftr_div_pow2 by lia.
      assert (1 <= Z.log2 x / 8).
      { pose proof (Z.div_le_mono 8 (Z.log2 x) 8 ltac:(lia) Hlog) as Hd.
        change (8 / 8) with 1 in Hd. exact Hd. }
      rewrite Z.div_div by (try apply Z.pow_pos_nonneg; lia).
      rewrite <- Z.pow_add_r by lia.
      replace (8 + 8 * (Z.log2 x / 8 + -1)) with (8 * (Z.log2 x / 8)) by lia.
      lia.
    + exact Ht.
    + rewrite Z.shiftr_div_pow2 by lia. split; [apply Z.div_pos; lia|].
      apply Z.div_lt_upper_bound; [lia|].
      rewrite <- Z.pow_add_r by lia.
      replace (8 + 8 * Z.of_nat (S fuel')) with (8 * Z.of_nat (S (S fuel'))) by lia.
      apply Hx.
    + lia.
    + rewrite u64_small by lia. lia.
    + rewrite u64_small by lia. lia.
Qed.

(** ** A 0 in the input *)

Lemma tabled_floor_log2_table x :
  tabled.floor_log2 maths.floor_log2_answer x = maths.floor_log2 x.
Proof. reflexivity. Qed.

Lemma tabled_encode_table m cap seq :
  tabled.encode maths.floor_log2_answer m cap seq = encode m cap seq.
Proof. reflexivity. Qed.

Lemma floor_table_entries answer :
  floor_table answer = true ->
  Forall (fun e => 0 <= e < 256) answer
  /\ forall i, 1 <= i <= 255 -> nth (Z.to_nat i) answer 0 = Z.log2 i.
Proof.
  unfold floor_table. intros H.
  apply andb_prop in H as [H H3]. apply andb_prop in H as [_ H2]. split.
  - apply Forall_forall. intros e He. rewrite forallb_forall in H2.
    specialize (H2 e He). lia.
  - intros i Hi. rewrite forallb_forall in H3.
    specialize (H3 (Z.to_nat i)). rewrite Z2Nat.id in H3 by lia.
    apply Z.eqb_eq, H3, in_seq. lia.
Qed.

Lemma tabled_floor_log2_top answer x :
  floor_table answer = true -> 0 <= x < 2 ^ 64 ->
  tabled.floor_log2 answer x
  = Ok (nth (Z.to_nat (x / 2 ^ (8 * (Z.log2 x / 8)))) answer 0 + 8 * (Z.log2 x / 8)).
Proof.
  intros Ht Hx. destruct (floor_table_entries answer Ht) as [Hb _].
  change (tabled.floor_log2 answer x) with (maths_rest.ceiling_log2_loop answer 8 x 0).
  rewrite ceiling_log2_loop_top; [now rewrite Z.add_0_r | exact Hb | exact Hx | lia | lia | cbn; lia].
Qed.

(** The logarithm of 0 is entry 0 of the table; that of a power of 2 is
    its exponent. *)
Lemma tabled_floor_log2_zero answer :
  floor_table answer = true -> tabled.floor_log2 answer 0 = Ok (nth 0 answer 0).
Proof.
  intros Ht. rewrite tabled_floor_log2_top by (assumption || lia).
  f_equal. cbn. lia.
Qed.

Lemma tabled_floor_log2_pow2 answer t :
  floor_table answer = true -> 0 <= t < 64 -> tabled.floor_log2 answer (2 ^ t) = Ok t.
Proof.
  intros Ht Hr. destruct (floor_table_entries answer Ht) as [_ He].
  rewrite tabled_floor_log2_top.
  2: exact Ht.
  2:{ split; [apply Z.pow_nonneg; lia|]. apply Z.pow_lt_mono_r; lia. }
  rewrite Z.log2_pow2 by lia.
  pose proof (Z.div_mod t 8 ltac:(lia)) as Hd.
  pose proof (Z.mod_pos_bound t 8 ltac:(lia)) as Hm.
  assert (Hq : 0 <= t / 8) by (apply Z.div_pos; lia).
  assert (E : 2 ^ t / 2 ^ (8 * (t / 8)) = 2 ^ (t mod 8)).
  { rewrite Hd at 1. rewrite Z.pow_add_r by lia.
    rewrite Z.mul_comm, Z.div_mul; [reflexivity|].
    apply Z.pow_nonzero; lia. }
  rewrite E, He.
  - rewrite Z.log2_pow2 by lia. f_equal. lia.
  - split; [apply (Z.pow_le_mono_r 2 0); lia|].
    apply Z.lt_succ_r. change (Z.succ 255) with (2 ^ 8). apply Z.pow_lt_mono_r; lia.
Qed.

Lemma land_pow2_not_top t : 0 <= t < 64 -> Z.land (2 ^ t) (not_u64 (u64 (Z.shiftl 1 t))) = 0.
Proof.
  intros Ht.
  apply (forallb_range (fun t => Z.land (2 ^ t) (not_u64 (u64 (Z.shiftl 1 t))) =? 0) 64) in Ht;
    [now apply Z.eqb_eq in Ht | vm_compute; reflexivity].
Qed.

(** With entry 0 of the table [t], an integer 0 goes through the loop
    body exactly as the integer [2 ^ t]. *)
Lemma tabled_encode_value_zero answer m into :
  floor_table answer = true -> nth 0 answer 0 < 64 ->
  tabled.encode_value answer m into 0
  = tabled.encode_value answer m into (2 ^ nth 0 answer 0).
Proof.
  intros Ht H64. destruct (floor_table_entries answer Ht) as [Hb _].
  pose proof (nth_byte_table answer 0 Hb) as H0.
  set (t := nth 0 answer 0) in *.
  unfold tabled.encode_value.
  rewrite tabled_floor_log2_zero, tabled_floor_log2_pow2 by (assumption || lia).
  fold t. cbn [bind].
  rewrite (u64_small (t + 1)), (u32_small (t + 1)) by lia.
  destruct (tabled.floor_log2 answer (t + 1)) as [fu|]; cbn [bind]; [|reflexivity].
  destruct (shl_int 1 (u32 fu)) as [bit|]; cbn [bind]; [|reflexivity].
  destruct (shl_u64 _ _) as [p|]; cbn [bind]; [|reflexivity].
  destruct (or64 m _ p) as [m1|]; cbn [bind]; [|reflexivity].
  replace (t + 1 - 1) with t by lia. rewrite (u32_small t) by lia.
  rewrite shl_u64_ok by lia. cbn [bind].
  now rewrite Z.land_0_l, land_pow2_not_top by lia.
Qed.

Lemma tabled_encode_loop_zero answer : forall seq m into,
  floor_table answer = true -> nth 0 answer 0 < 64 ->
  tabled.encode_loop answer m into seq
  = tabled.encode_loop answer m into (map (zero_as (2 ^ nth 0 answer 0)) seq).
Proof.
  induction seq as [|v seq IH]; intros m into Ht H64;
    cbn [tabled.encode_loop map]; [reflexivity|].
  assert (E : tabled.encode_value answer m into v
              = tabled.encode_value answer m into (zero_as (2 ^ nth 0 answer 0) v)).
  { unfold zero_as. destruct (Z.eqb_spec v 0) as [->|]; [|reflexivity].
    now apply tabled_encode_value_zero. }
  rewrite <- E.
  destruct (tabled.encode_value answer m into v) as [[m1 into1]|]; cbn [bind];
    [now apply IH|reflexivity].
Qed.

(** With entry 0 of the table 64 or more, the shift [1ULL << (n - 1)] of
    the loop body is by that entry. *)
Lemma tabled_encode_value_zero_wide answer m into :
  floor_table answer = true -> 64 <= nth 0 answer 0 ->
  exists u, tabled.encode_value answer m into 0 = Undefined u.
Proof.
  intros Ht H64. destruct (floor_table_entries answer Ht) as [Hb _].
  pose proof (nth_byte_table answer 0 Hb) as H0.
  set (t := nth 0 answer 0) in *.
  unfold tabled.encode_value.
  rewrite tabled_floor_log2_zero by assumption. fold t. cbn [bind].
  rewrite (u64_small (t + 1)), (u32_small (t + 1)) by lia.
  destruct (tabled.floor_log2 answer (t + 1)) as [fu|]; cbn [bind]; [|eauto].
  destruct (shl_int 1 (u32 fu)) as [bit|]; cbn [bind]; [|eauto].
  destruct (shl_u64 _ _) as [p|]; cbn [bind]; [|eauto].
  destruct (or64 m _ p) as [m1|]; cbn [bind]; [|eauto].
  replace (t + 1 - 1) with t by lia. rewrite (u32_small t) by lia.
  unfold shl_u64 at 1. rewrite (proj2 (Z.ltb_ge t 64)) by lia.
  rewrite andb_false_r. cbn [bind]. eauto.
Qed.

Lemma tabled_encode_loop_zero_wide answer : forall seq m into,
  floor_table answer = true -> 64 <= nth 0 answer 0 -> In 0 seq ->
  exists u, tabled.encode_loop answer m into seq = Undefined u.
Proof.
  induction seq as [|v seq IH]; intros m into Ht H64 Hin; [destruct Hin|].
  cbn [tabled.encode_loop].
  destruct (Z.eq_dec v 0) as [->|Hv].
  - destruct (tabled_encode_value_zero_wide answer m into Ht H64) as [u ->]. cbn [bind]. eauto.
  - destruct Hin as [Hin|Hin]; [congruence|].
    destruct (tabled.encode_value answer m into v) as [[m1 into1]|]; cbn [bind]; [|eauto].
    now apply IH.
Qed.

(** ** Destination contents before the call *)

Lemma related_bind {A1 A2 B1 B2 : Type} (R : A1 -> A2 -> Prop) (Q : B1 -> B2 -> Prop)
  (o1 : outcome A1) (o2 : outcome A2) (k1 : A1 -> outcome B1) (k2 : A2 -> outcome B2) :
  related R o1 o2 ->
  (forall a1 a2, R a1 a2 -> related Q (k1 a1) (k2 a2)) ->
  related Q (bind o1 k1) (bind o2 k2).
Proof.
  destruct o1 as [a1|u1], o2 as [a2|u2]; cbn [related bind]; intros H Hk;
    try contradiction; auto.
Qed.

Lemma related_pure {A B1 B2 : Type} (Q : B1 -> B2 -> Prop)
  (o : outcome A) (k1 : A -> outcome B1) (k2 : A -> outcome B2) :
  (forall a, o = Ok a -> related Q (k1 a) (k2 a)) ->
  related Q (bind o k1) (bind o k2).
Proof.
  destruct o as [a|u]; cbn [related bind]; intros Hk; auto.
Qed.

Lemma shl_u64_range a c p : shl_u64 a c = Ok p -> 0 <= p < 2 ^ 64.
Proof.
  unfold shl_u64. destruct (_ && _); [|discriminate].
  intros [= <-]. apply Z.mod_pos_bound. reflexivity.
Qed.

Lemma agree_or64 cap m1 m2 addr pattern :
  agree cap m1 m2 -> 0 <= pattern < 2 ^ 64 ->
  related (agree cap) (or64 m1 addr pattern) (or64 m2 addr pattern).
Proof.
  intros [Hlen Hfst] Hp. unfold or64, load64, store64, in_bounds. rewrite Hlen.
  destruct ((0 <=? addr) && (0 <=? 8) && (addr + 8 <=? Z.of_nat (length m2))) eqn:E;
    cbn [bind related]; [|reflexivity].
  apply andb_prop in E as [E E3]. apply andb_prop in E as [E1 _].
  apply Z.leb_le in E1, E3.
  fold (or64_at m1 addr pattern). fold (or64_at m2 addr pattern).
  assert (L1 : length (or64_at m1 addr pattern) = length m1)
    by (apply length_poke64; lia).
  assert (L2 : length (or64_at m2 addr pattern) = length m2)
    by (apply length_poke64; lia).
  split; [congruence|].
  apply le_combine_inj; [rewrite !length_firstn; lia|].
  rewrite !le_combine_firstn.
  fold (mem_int (or64_at m1 addr pattern)). fold (mem_int (or64_at m2 addr pattern)).
  rewrite !mem_int_or64_at by lia.
  rewrite <- !Z.land_ones, !Z.land_lor_distr_l, !Z.land_ones by lia.
  unfold mem_int. rewrite <- !le_combine_firstn. now rewrite Hfst.
Qed.

Lemma agree_encode_value cap m1 m2 into v :
  agree cap m1 m2 ->
  related (fun r1 r2 => agree cap (fst r1) (fst r2) /\ snd r1 = snd r2)
    (encode_value m1 into v) (encode_value m2 into v).
Proof.
  intros Ha. unfold encode_value.
  apply related_pure; intros fl _.
  apply related_pure; intros fu _.
  apply related_pure; intros b _.
  apply related_pure; intros p1 Hp1.
  apply (related_bind (agree cap)); [apply agree_or64; eauto using shl_u64_range|].
  intros m1' m2' Ha'.
  apply related_pure; intros t _.
  apply related_pure; intros p2 Hp2.
  apply (related_bind (agree cap)); [apply agree_or64; eauto using shl_u64_range|].
  intros m1'' m2'' Ha''. cbn. auto.
Qed.

Lemma agree_encode_loop cap : forall seq m1 m2 into,
  agree cap m1 m2 ->
  related (fun r1 r2 => agree cap (fst r1) (fst r2) /\ snd r1 = snd r2)
    (encode_loop m1 into seq) (encode_loop m2 into seq).
Proof.
  induction seq as [|v seq IH]; intros m1 m2 into Ha; cbn [encode_loop].
  - cbn. auto.
  - eapply related_bind; [apply agree_encode_value; exact Ha|].
    intros [m1' i1] [m2' i2] [Ha' Hi]. cbn [fst snd] in *. subst i2. now apply IH.
Qed.

Lemma agree_memset0 m1 m2 cap :
  length m1 = length m2 ->
  related (agree (Z.to_nat cap)) (memset0 m1 cap) (memset0 m2 cap).
Proof.
  intros Hlen. unfold memset0, in_bounds. rewrite Hlen.
  destruct ((0 <=? 0) && (0 <=? cap) && (0 + cap <=? Z.of_nat (length m2))) eqn:E;
    cbn [related]; [|reflexivity].
  split.
  - rewrite !length_app, !length_skipn. lia.
  - rewrite !firstn_app, !repeat_length, Nat.sub_diag. cbn [firstn].
    reflexivity.
Qed.

Lemma agree_encode m1 m2 cap seq :
  length m1 = length m2 ->
  related (fun r1 r2 => agree (Z.to_nat cap) (fst r1) (fst r2) /\ snd r1 = snd r2)
    (encode m1 cap seq) (encode m2 cap seq).
Proof.
  intros Hlen. unfold encode.
  eapply related_bind; [apply agree_memset0; exact Hlen|].
  intros m1' m2' Ha.
  eapply related_bind; [apply agree_encode_loop; exact Ha|].
  intros [m1'' i1] [m2'' i2] [Ha' Hi]. cbn [fst snd related] in *. now subst.
Qed.

(** ** The decoder *)

Lemma length_decode_loop ib m : forall n total d total' d' out,
  decode_loop ib m total d n = Ok (total', d', out) -> length out = n.
Proof.
  induction n as [|n IH]; intros total d total' d' out; cbn [decode_loop].
  - now intros [= _ _ <-].
  - destruct (decode_value ib m total d) as [[[t1 d1] x]|]; cbn [bind]; [|discriminate].
    destruct (decode_loop ib m t1 d1 n) as [[[t2 d2] xs]|] eqn:E; cbn [bind]; [|discriminate].
    intros [= _ _ <-]. cbn [length]. f_equal. eauto.
Qed.

(** The counter is carried along and never read: from any two counters
    the loop takes the same steps. *)
Lemma decode_loop_counter ib m : forall n t1 t2 d,
  omap (fun r => (snd (fst r), snd r)) (decode_loop ib m t1 d n)
  = omap (fun r => (snd (fst r), snd r)) (decode_loop ib m t2 d n).
Proof.
  induction n as [|n IH]; intros t1 t2 d; cbn [decode_loop]; [reflexivity|].
  unfold decode_value.
  destruct (decode_integer ib m d) as [[d1 x]|]; cbn [bind omap]; [|reflexivity].
  specialize (IH (count_iteration t1) (count_iteration t2) d1).
  destruct (decode_loop ib m (count_iteration t1) d1 n) as [[[ta da] xa]|],
           (decode_loop ib m (count_iteration t2) d1 n) as [[[tb db] xb]|];
    cbn [bind omap fst snd] in *; congruence.
Qed.

(** ** The decoder inside one word *)

Lemma pos_tz_nonneg p : 0 <= pos_tz p.
Proof. induction p; cbn [pos_tz]; lia. Qed.

Lemma pos_tz_bit p : Z.testbit (Zpos p) (pos_tz p) = true.
Proof.
  induction p as [q IH|q IH|]; cbn [pos_tz]; try reflexivity.
  pose proof (pos_tz_nonneg q).
  change (Zpos q~0) with (2 * Zpos q).
  replace (1 + pos_tz q) with (Z.succ (pos_tz q)) by lia.
  now rewrite Z.double_bits_succ.
Qed.

Lemma pos_tz_low p i : 0 <= i < pos_tz p -> Z.testbit (Zpos p) i = false.
Proof.
  revert i. induction p as [q IH|q IH|]; cbn [pos_tz]; intros i Hi; try lia.
  change (Zpos q~0) with (2 * Zpos q).
  destruct (Z.eq_dec i 0) as [->|Hne].
  - apply Z.testbit_even_0.
  - replace i with (Z.succ (i - 1)) by lia.
    rewrite Z.double_bits_succ. apply IH. lia.
Qed.

Lemma tzcnt_unique x k :
  0 < x -> 0 <= k -> Z.testbit x k = true ->
  (forall i, 0 <= i < k -> Z.testbit x i = false) ->
  _tzcnt_u64 x = k.
Proof.
  intros Hx Hk Hbit Hlow. destruct x as [|p|p]; try lia. cbn [_tzcnt_u64].
  pose proof (pos_tz_nonneg p) as H0. pose proof (pos_tz_bit p) as H1.
  destruct (Z.lt_trichotomy (pos_tz p) k) as [Hlt|[Heq|Hgt]]; [|exact Heq|].
  - rewrite Hlow in H1 by lia. discriminate.
  - rewrite pos_tz_low in Hbit by lia. discriminate.
Qed.

Lemma bit_above x k i : 0 <= x < 2 ^ k -> k <= i -> Z.testbit x i = false.
Proof.
  intros Hx Hi.
  destruct (Z.lt_ge_cases k 0) as [Hk|Hk]; [rewrite Z.pow_neg_r in Hx by lia; lia|].
  rewrite <- (Z.mod_small x (2 ^ k)) by assumption.
  apply Z.mod_pow2_bits_high. lia.
Qed.

Section Fields.
Variables u l a b r : Z.
Hypothesis Hu : 0 <= u.
Hypothesis Hl : 0 <= l.
Hypothesis Ha : 0 <= a < 2 ^ (u + 1).
Hypothesis Hodd : Z.testbit a 0 = true.
Hypothesis Hb : 0 <= b < 2 ^ l.
Hypothesis Hr : 0 <= r.

Lemma fields_nonneg : 0 <= packed u l a b r.
Proof.
  unfold packed. repeat (apply Z.lor_nonneg; split); apply Z.shiftl_nonneg; lia.
Qed.

Lemma fields_bit_u : Z.testbit (packed u l a b r) u = true.
Proof.
  unfold packed. rewrite !Z.lor_spec, Z.shiftl_spec, Z.sub_diag, Hodd by lia. reflexivity.
Qed.

Lemma fields_low i : 0 <= i < u -> Z.testbit (packed u l a b r) i = false.
Proof.
  intros Hi. unfold packed. rewrite !Z.lor_spec, !Z.shiftl_spec_low by lia. reflexivity.
Qed.

Lemma fields_pos : 0 < packed u l a b r.
Proof.
  pose proof fields_nonneg. pose proof fields_bit_u as H1.
  destruct (Z.eq_dec (packed u l a b r) 0) as [E|]; [|lia].
  rewrite E, Z.bits_0 in H1. discriminate.
Qed.

Lemma fields_length : Z.land (Z.shiftr (packed u l a b r) u) (Z.ones (u + 1)) = a.
Proof.
  unfold packed. apply Z.bits_inj'. intros i Hi.
  rewrite Z.land_spec, Z.shiftr_spec, !Z.lor_spec, !Z.shiftl_spec by lia.
  replace (i + u - u) with i by lia.
  destruct (Z.lt_ge_cases i (u + 1)) as [Hlt|Hge].
  - rewrite Z.ones_spec_low, !(Z.testbit_neg_r _ (i + u - _)) by lia.
    now rewrite !orb_false_r, andb_true_r.
  - rewrite Z.ones_spec_high, andb_false_r by lia.
    symmetry. now apply bit_above with (k := u + 1).
Qed.

Lemma fields_after_length :
  Z.shiftr (Z.shiftr (packed u l a b r) u) (u + 1) = Z.lor b (Z.shiftl r l).
Proof.
  unfold packed. apply Z.bits_inj'. intros i Hi.
  rewrite !Z.shiftr_spec, !Z.lor_spec, !Z.shiftl_spec by lia.
  rewrite (bit_above a (u + 1)) by lia. cbn [orb].
  f_equal; f_equal; lia.
Qed.

End Fields.

Lemma fields_value l b r :
  0 <= l -> 0 <= b < 2 ^ l ->
  Z.lor (Z.land (Z.lor b (Z.shiftl r l)) (Z.ones (l + 1))) (2 ^ l) = b + 2 ^ l.
Proof.
  intros Hl Hb.
  assert (Hdisjoint : Z.land b (2 ^ l) = 0).
  { apply Z.bits_inj'. intros i Hi.
    rewrite Z.land_spec, Z.pow2_bits_eqb, Z.bits_0 by lia.
    destruct (Z.eqb_spec l i) as [<-|]; [|apply andb_false_r].
    now rewrite (bit_above b l) by lia. }
  rewrite <- (Z.or_to_plus b (2 ^ l) Hdisjoint).
  apply Z.bits_inj'. intros i Hi.
  rewrite !Z.lor_spec, Z.land_spec, Z.lor_spec, Z.shiftl_spec, Z.pow2_bits_eqb by lia.
  destruct (Z.lt_trichotomy i l) as [Hlt|[->|Hgt]].
  - rewrite Z.ones_spec_low, (Z.testbit_neg_r r) by lia.
    now rewrite orb_false_r, andb_true_r.
  - rewrite Z.eqb_refl. now rewrite !orb_true_r.
  - rewrite Z.ones_spec_high, andb_false_r by lia.
    now rewrite (bit_above b l) by lia.
Qed.

Lemma fields_after_value l b r :
  0 <= l -> 0 <= b < 2 ^ l -> Z.shiftr (Z.lor b (Z.shiftl r l)) l = r.
Proof.
  intros Hl Hb.
  apply Z.bits_inj'. intros i Hi.
  rewrite Z.shiftr_spec, Z.lor_spec, Z.shiftl_spec by lia.
  rewrite (bit_above b l) by lia. cbn [orb]. f_equal. lia.
Qed.

Lemma small_bit_length N : small N -> 1 <= bit_length N <= 31.
Proof.
  intros [H1 H2]. unfold bit_length. pose proof (Z.log2_nonneg N).
  assert (Z.log2 N < 31) by (apply Z.log2_lt_pow2; lia). lia.
Qed.

Lemma small_valid N : small N -> valid N.
Proof. unfold small, valid. lia. Qed.

Lemma length_field_odd N : Z.testbit (length_field N) 0 = true.
Proof. unfold length_field. apply Z.testbit_odd_0. Qed.

Lemma un_zig_zag N :
  valid N -> Z.lor (Z.shiftr (length_field N) 1) (2 ^ unary_length N) = bit_length N.
Proof.
  intros HN. pose proof (bit_length_bounds N HN) as HL.
  pose proof (unary_length_bounds N HN) as HU.
  pose proof (Z.log2_spec (bit_length N) ltac:(lia)) as Hs.
  fold (unary_length N) in Hs. rewrite Z.pow_succ_r in Hs by lia.
  unfold length_field. rewrite Z.shiftr_div_pow2 by lia. change (2 ^ 1) with 2.
  replace ((2 * (bit_length N - 2 ^ unary_length N) + 1) / 2)
    with (bit_length N - 2 ^ unary_length N)
    by (apply Z.div_unique with 1; lia).
  rewrite Z.or_to_plus; [lia|].
  apply Z.bits_inj'. intros i Hi.
  rewrite Z.land_spec, Z.pow2_bits_eqb, Z.bits_0 by lia.
  destruct (Z.eqb_spec (unary_length N) i) as [<-|]; [|apply andb_false_r].
  rewrite (bit_above _ (unary_length N)) by lia. reflexivity.
Qed.

Lemma decode_integer_in_word ib m d N r :
  small N -> 31 <= ib -> 0 <= r ->
  value d = Z.lor (codeword N) (Z.shiftl r (codeword_bits N)) ->
  0 <= bits_used d -> bits_used d + codeword_bits N <= 63 ->
  decode_integer ib m d
  = Ok (mk_decoder (bits_used d + codeword_bits N) (unary_length N) r (source d), N).
Proof.
  intros HS Hib Hr Hv Hb0 Hb.
  pose proof (small_valid N HS) as HN.
  pose proof (small_bit_length N HS) as HL.
  pose proof (unary_length_bounds N HN) as HU.
  pose proof (length_field_bounds N HN) as Ha.
  pose proof (value_field_bounds N HN) as Hvf.
  pose proof (length_field_odd N) as Hodd.
  assert (Hcw : codeword_bits N = 2 * unary_length N + 1 + (bit_length N - 1)) by reflexivity.
  set (u := unary_length N) in *. set (l := bit_length N - 1) in *.
  set (a := length_field N) in *. set (b := value_field N) in *.
  assert (Hl : 0 <= l) by (unfold l; lia).
  assert (HV : value d = packed u l a b r).
  { rewrite Hv, Hcw. reflexivity. }
  clear Hv. destruct d as [bu un V src]. cbn [value bits_used source] in *. subst V.
  set (V := packed u l a b r).
  assert (Hpos : 0 < V) by (apply fields_pos; solve [lia | assumption]).
  assert (Htz : _tzcnt_u64 V = u).
  { apply tzcnt_unique; [exact Hpos | lia | |].
    - apply fields_bit_u; lia || assumption.
    - intros i Hi. apply fields_low; lia. }
  assert (F3 : Z.land (Z.shiftr V u) (Z.ones (u + 1)) = a)
    by (apply (fields_length u l a b r); solve [lia | assumption]).
  assert (F4 : Z.shiftr (Z.shiftr V u) (u + 1) = Z.lor b (Z.shiftl r l))
    by (apply (fields_after_length u l a b r); solve [lia | assumption]).
  assert (F5 : Z.lor (Z.land (Z.lor b (Z.shiftl r l)) (Z.ones (l + 1))) (2 ^ l) = b + 2 ^ l)
    by (apply (fields_value l b r); solve [lia | assumption]).
  assert (F6 : Z.shiftr (Z.lor b (Z.shiftl r l)) l = r)
    by (apply (fields_after_value l b r); solve [lia | assumption]).
  assert (F2 : Z.lor (Z.shiftr a 1) (2 ^ u) = l + 1)
    by (unfold l; rewrite Z.sub_add; apply (un_zig_zag N HN)).
  clearbody V.
  unfold decode_integer, scan_unary. cbn [value bits_used unary source set_unary set_bits_used set_value].
  rewrite (proj2 (Z.eqb_neq V 0)) by lia.
  rewrite Htz. rewrite (u64_small (bu + u)) by lia.
  rewrite shr_u64_ok by lia. cbn [bind].
  unfold read_length, set_value, set_bits_used, set_unary.
  cbn [value bits_used unary source].
  rewrite (u64_small (bu + u + u)) by lia.
  rewrite (u64_small (bu + u + u + 1)) by lia.
  rewrite (proj2 (Z.ltb_ge 64 (bu + u + u + 1))) by lia.
  rewrite (u64_small (u + 1)) by lia. rewrite (u32_small (u + 1)) by lia.
  unfold _bextr_u64. change (0 mod 256) with 0. rewrite Z.shiftr_0_r.
  rewrite (Z.mod_small (u + 1) 256) by lia.
  rewrite F3.
  rewrite shr_u64_ok, shl_u64_ok by lia. cbn [bind].
  rewrite Z.shiftl_1_l.
  rewrite (u64_small (2 ^ u)).
  2:{ split; [apply Z.pow_nonneg; lia|]. apply Z.pow_lt_mono_r; lia. }
  rewrite F2.
  rewrite shr_u64_ok by lia. cbn [bind].
  rewrite F4.
  rewrite (u64_small (bu + u + (u + 1))) by lia.
  unfold read_value. cbn [value bits_used unary source].
  rewrite (u64_small (bu + u + (u + 1) + (l + 1))) by lia.
  rewrite (proj2 (Z.ltb_ge 64 (bu + u + (u + 1) + (l + 1)))) by lia.
  replace (l + 1 - 1) with l by lia.
  rewrite (u64_small l) by lia.
  rewrite shl_int_ok by lia. cbn [bind].
  unfold set_bits_used, set_value. cbn [value bits_used unary source].
  rewrite shr_u64_ok by lia. cbn [bind].
  rewrite F6. rewrite Z.shiftl_1_l.
  assert (Hpl : 0 < 2 ^ l < 2 ^ 31).
  { split; [apply Z.pow_pos_nonneg; lia|]. apply Z.pow_lt_mono_r; lia. }
  assert (Hs32 : s32 (2 ^ l) = 2 ^ l).
  { unfold s32. rewrite Z.mod_small; lia. }
  rewrite Hs32, (u64_small (2 ^ l)) by lia.
  unfold _bextr_u64. change (0 mod 256) with 0. rewrite Z.shiftr_0_r.
  rewrite (u32_small (l + 1)) by lia. rewrite (Z.mod_small (l + 1) 256) by lia.
  rewrite F5.
  assert (HNv : b + 2 ^ l = N) by (unfold b, value_field, l; lia).
  rewrite HNv.
  rewrite (Z.mod_small N (2 ^ ib)).
  2:{ destruct HS as [H1 H2]. split; [lia|].
      apply Z.lt_le_trans with (2 ^ 31); [lia|]. apply Z.pow_le_mono_r; lia. }
  rewrite (u64_small (bu + u + (u + 1) + l)) by lia.
  do 3 f_equal. lia.
Qed.

Lemma shiftl_below x k n : 0 <= x < 2 ^ k -> 0 <= k -> 0 <= n -> 0 <= Z.shiftl x n < 2 ^ (k + n).
Proof.
  intros Hx Hk Hn. rewrite Z.shiftl_mul_pow2, Z.pow_add_r by lia.
  pose proof (Z.pow_pos_nonneg 2 n ltac:(lia) Hn). nia.
Qed.

Lemma below_weaken x k k' : 0 <= x < 2 ^ k -> k <= k' -> 0 <= x < 2 ^ k'.
Proof.
  intros Hx Hk. split; [lia|].
  destruct (Z.lt_ge_cases k 0); [rewrite Z.pow_neg_r in Hx by lia; lia|].
  apply Z.lt_le_trans with (2 ^ k); [lia|]. apply Z.pow_le_mono_r; lia.
Qed.

Lemma codeword_bounds N : valid N -> 0 <= codeword N < 2 ^ codeword_bits N.
Proof.
  intros HN. pose proof (bit_length_bounds N HN) as HL.
  pose proof (unary_length_bounds N HN) as HU.
  pose proof (length_field_bounds N HN) as Ha.
  pose proof (value_field_bounds N HN) as Hb.
  unfold codeword, codeword_bits. apply lor_below.
  - eapply below_weaken;
      [apply (shiftl_below _ (unary_length N + 1)); [split; [lia|apply Ha]|lia|lia]|].
    lia.
  - eapply below_weaken;
      [apply (shiftl_below _ (bit_length N - 1)); [exact Hb|lia|lia]|].
    lia.
Qed.

Lemma stream_code_bounds seq :
  Forall valid seq -> 0 <= stream_code seq < 2 ^ stream_bits seq.
Proof.
  induction 1 as [|N seq HN Hv IH]; cbn [stream_code stream_bits]; [cbn; lia|].
  pose proof (codeword_bits_bounds N HN). pose proof (stream_bits_nonneg seq Hv).
  apply lor_below.
  - eapply below_weaken; [apply codeword_bounds; exact HN|lia].
  - eapply below_weaken;
      [apply (shiftl_below _ (stream_bits seq)); [exact IH|lia|lia]|].
    lia.
Qed.

Lemma decode_loop_in_word ib m : forall seq total d,
  Forall small seq -> 31 <= ib ->
  value d = stream_code seq ->
  0 <= bits_used d -> bits_used d + stream_bits seq <= 63 ->
  exists total' d', decode_loop ib m total d (length seq) = Ok (total', d', seq).
Proof.
  induction seq as [|N seq IH]; intros total d Hs Hib Hv Hb0 Hb;
    cbn [length decode_loop stream_code stream_bits] in *.
  - eauto.
  - inversion Hs as [|? ? HN Hs']; subst.
    assert (Hvalid : Forall valid seq)
      by (eapply Forall_impl; [|exact Hs']; apply small_valid).
    pose proof (stream_code_bounds seq Hvalid) as Hr.
    pose proof (stream_bits_nonneg seq Hvalid) as Hsb.
    pose proof (codeword_bits_bounds N (small_valid N HN)) as Hc.
    unfold decode_value.
    rewrite (decode_integer_in_word ib m d N (stream_code seq)) by (assumption || lia).
    cbn [bind].
    edestruct (IH (count_iteration total)
                 (mk_decoder (bits_used d + codeword_bits N) (unary_length N)
                    (stream_code seq) (source d))) as (t' & d' & E);
      try eassumption; cbn [value bits_used]; try lia.
    rewrite E. cbn [bind]. eauto.
Qed.

(** Inside the first 63 bits, and for integers below 2^31, the decoder
    returns what the encoder was given. *)
Lemma round_trip_in_word ib m seq :
  Forall small seq -> 31 <= ib -> stream_bits seq <= 63 ->
  (15 <= length m)%nat ->
  round_trip ib m seq = Ok seq.
Proof.
  intros Hs Hib Hb Hm.
  assert (Hvalid : Forall valid seq)
    by (eapply Forall_impl; [|exact Hs]; apply small_valid).
  assert (Hfits : Forall fits seq).
  { eapply Forall_impl; [|exact Hs]. unfold small, fits. intros; lia. }
  pose proof (stream_bits_nonneg seq Hvalid) as Hsb.
  pose proof (stream_code_bounds seq Hvalid) as Hsc.
  assert (Hdiv : stream_bits seq / 8 < 8).
  { apply Z.div_lt_upper_bound; lia. }
  destruct (encode_effect m (Z.of_nat (length m)) seq Hfits ltac:(lia) ltac:(lia) ltac:(lia))
    as (m' & E & Hlen & Hbits).
  unfold round_trip. rewrite E. cbn [bind].
  unfold decode, decode_from, load64.
  rewrite in_bounds_true by lia. cbn [bind].
  assert (Hw : peek64 m' 0 = stream_code seq).
  { unfold peek64. cbn [Z.to_nat skipn]. rewrite le_combine_firstn.
    change (8 * Z.of_nat 8) with 64. fold (mem_int m').
    apply Z.bits_inj'. intros i Hi.
    destruct (Z.lt_ge_cases i 64) as [Hlt|Hge].
    - rewrite Z.mod_pow2_bits_low by lia. fold (mem_bit m' i).
      rewrite Hbits by lia. rewrite (proj2 (Z.ltb_lt i _)) by lia. reflexivity.
    - rewrite Z.mod_pow2_bits_high by lia. symmetry.
      apply bit_above with (k := 63); [|lia].
      eapply below_weaken; [exact Hsc|lia]. }
  rewrite Hw.
  destruct (decode_loop_in_word ib m' seq 0 (mk_decoder 0 0 (stream_code seq) 0)
              Hs Hib eq_refl ltac:(cbn; lia) ltac:(cbn; lia)) as (t' & d' & El).
  rewrite El. reflexivity.
Qed.

(** The pattern of a value field is one 64-bit word: above 2^58 the shift
    to the bit position can push its top bits out.  The codeword of
    2^63 - 1 ends with bit 72 set, and [encode] leaves that bit clear. *)
Lemma encode_drops_wide_value_bits :
  Z.testbit (codeword (2 ^ 63 - 1)) 72 = true
  /\ codeword_bits (2 ^ 63 - 1) = 73
  /\ omap (fun r => mem_bit (fst r) 72) (encode (zeros 32) 32 [2 ^ 63 - 1]) = Ok false.
Proof. repeat split; vm_compute; reflexivity. Qed.

(** ** The low bits of the first word *)

Lemma stream_code_nonneg seq : Forall valid seq -> 0 <= stream_code seq.
Proof. intros Hv. apply (stream_code_bounds seq Hv). Qed.

Lemma decode_loop_in_word_then ib m : forall seq total d rest,
  Forall small seq -> 31 <= ib -> 0 <= rest ->
  value d = Z.lor (stream_code seq) (Z.shiftl rest (stream_bits seq)) ->
  0 <= bits_used d -> bits_used d + stream_bits seq <= 63 ->
  exists total' d', decode_loop ib m total d (length seq) = Ok (total', d', seq).
Proof.
  induction seq as [|N seq IH]; intros total d rest Hs Hib Hrest Hv Hb0 Hb;
    cbn [length decode_loop stream_code stream_bits] in *.
  - eauto.
  - inversion Hs as [|? ? HN Hs']; subst.
    assert (Hvalid : Forall valid seq)
      by (eapply Forall_impl; [|exact Hs']; apply small_valid).
    pose proof (stream_code_nonneg seq Hvalid) as Hr.
    pose proof (stream_bits_nonneg seq Hvalid) as Hsb.
    pose proof (codeword_bits_bounds N (small_valid N HN)) as Hc.
    set (r := Z.lor (stream_code seq) (Z.shiftl rest (stream_bits seq))).
    assert (Hr0 : 0 <= r).
    { apply Z.lor_nonneg. split; [exact Hr|]. apply Z.shiftl_nonneg. exact Hrest. }
    assert (Hv' : value d = Z.lor (codeword N) (Z.shiftl r (codeword_bits N))).
    { rewrite Hv. unfold r. rewrite Z.shiftl_lor, Z.shiftl_shiftl by lia.
      rewrite <- Z.lor_assoc. do 3 f_equal. lia. }
    unfold decode_value.
    rewrite (decode_integer_in_word ib m d N r) by (assumption || lia).
    cbn [bind].
    edestruct (IH (count_iteration total)
                 (mk_decoder (bits_used d + codeword_bits N) (unary_length N) r (source d))
                 rest) as (t' & d' & E);
      try eassumption; cbn [value bits_used]; try reflexivity; try lia.
    rewrite E. cbn [bind]. eauto.
Qed.

Lemma decode_low_bits ib m source_length seq :
  Forall small seq -> 31 <= ib -> stream_bits seq <= 63 ->
  8 <= Z.of_nat (length m) ->
  peek64 m 0 mod 2 ^ stream_bits seq = stream_code seq ->
  decode ib (length seq) m source_length = Ok seq.
Proof.
  intros Hs Hib Hb Hm Hlow.
  assert (Hvalid : Forall valid seq)
    by (eapply Forall_impl; [|exact Hs]; apply small_valid).
  pose proof (stream_bits_nonneg seq Hvalid) as Hsb.
  unfold decode, decode_from, load64.
  rewrite in_bounds_true by lia. cbn [bind].
  set (w := peek64 m 0) in *.
  assert (Hw0 : 0 <= w).
  { unfold w, peek64. apply le_combine_bound. }
  assert (Hw : w = Z.lor (stream_code seq)
                     (Z.shiftl (Z.shiftr w (stream_bits seq)) (stream_bits seq))).
  { rewrite <- Hlow. rewrite <- Z.land_ones by lia.
    rewrite <- Z.ldiff_ones_r by lia.
    apply Z.bits_inj'. intros i Hi.
    rewrite Z.lor_spec, Z.land_spec, Z.ldiff_spec.
    destruct (Z.testbit w i), (Z.testbit (Z.ones (stream_bits seq)) i); reflexivity. }
  destruct (decode_loop_in_word_then ib m seq 0 (mk_decoder 0 0 w 0)
              (Z.shiftr w (stream_bits seq)) Hs Hib
              ltac:(apply Z.shiftr_nonneg; exact Hw0) Hw
              ltac:(cbn; lia) ltac:(cbn; lia)) as (t' & d' & El).
  rewrite El. reflexivity.
Qed.

(** ** The decoder on a memory of one-bits *)

Lemma ones_codeword_1 k :
  1 <= k -> Z.ones k = Z.lor (codeword 1) (Z.shiftl (Z.ones (k - 1)) (codeword_bits 1)).
Proof.
  intros Hk. change (codeword 1) with 1. change (codeword_bits 1) with 1.
  apply Z.bits_inj'. intros i Hi.
  rewrite Z.lor_spec, Z.shiftl_spec, Z.testbit_ones_nonneg by lia.
  destruct (Z.eq_dec i 0) as [->|Hne].
  - cbn [Z.testbit]. rewrite (proj2 (Z.ltb_lt 0 k)) by lia. reflexivity.
  - rewrite Z.testbit_ones_nonneg by lia.
    change 1 with (2 ^ 0) at 1. rewrite Z.pow2_bits_eqb by lia.
    rewrite (proj2 (Z.eqb_neq 0 i)) by lia. cbn [orb].
    destruct (Z.ltb_spec i k), (Z.ltb_spec (i - 1) (k - 1)); reflexivity || lia.
Qed.

(** A codeword of 1 that ends before bit 63 of the word. *)
Lemma decode_integer_ones ib m b un s :
  31 <= ib -> 0 <= b < 63 ->
  decode_integer ib m (mk_decoder b un (Z.ones (64 - b)) s)
  = Ok (mk_decoder (b + 1) 0 (Z.ones (64 - (b + 1))) s, 1).
Proof.
  intros Hib Hb.
  rewrite (decode_integer_in_word ib m _ 1 (Z.ones (64 - (b + 1)))).
  - reflexivity.
  - unfold small. lia.
  - exact Hib.
  - rewrite Z.ones_equiv. pose proof (Z.pow_pos_nonneg 2 (64 - (b + 1)) ltac:(lia) ltac:(lia)). lia.
  - cbn [value]. rewrite (ones_codeword_1 (64 - b)) by lia. do 3 f_equal. lia.
  - cbn [bits_used]. lia.
  - cbn [bits_used]. change (codeword_bits 1) with 1. lia.
Qed.

(** The codeword of 1 in bit 63: the value branch takes the next word for
    it, from [source]. *)
Lemma decode_integer_ones_last ib m un s :
  1 <= ib ->
  decode_integer ib m (mk_decoder 63 un 1 s)
  = w <- load64 m (8 * s) ;;
    Ok (mk_decoder 1 0 (Z.shiftr w 1) (s + 1), Z.lor (Z.land w 1) 1 mod 2 ^ ib).
Proof.
  intros Hib. unfold decode_integer.
  change (scan_unary m (mk_decoder 63 un 1 s)) with (Ok (mk_decoder 63 0 1 s)).
  cbn [bind].
  change (read_length m (mk_decoder 63 0 1 s)) with (Ok (mk_decoder 64 0 0 s, 1)).
  cbn [bind].
  unfold read_value, fetch. cbn [value bits_used unary source].
  change (64 <? u64 (64 + 1)) with true. cbv iota.
  change (u64 (1 - u64 (64 - 64))) with 1.
  change (shl_u64 0 1) with (@Ok Z 0). cbn [bind].
  destruct (load64 m (8 * s)) as [w|]; cbn [bind]; [|reflexivity].
  change (shl_int 1 (u64 (1 - 1))) with (@Ok Z 1). cbn [bind].
  unfold set_bits_used, set_value. cbn [value bits_used unary source].
  rewrite shr_u64_ok by lia. cbn [bind].
  rewrite Zmod_0_l, Z.lor_0_l.
  unfold _bextr_u64. change (0 mod 256) with 0. rewrite Z.shiftr_0_r.
  change (Z.ones (u32 1 mod 256)) with 1. change (u64 1) with 1.
  reflexivity.
Qed.

Lemma load64_ones words s :
  0 <= s ->
  load64 (repeat Byte.xff (8 * words)) (8 * s)
  = if s <? Z.of_nat words then Ok (Z.ones 64) else Undefined OutOfBounds.
Proof.
  intros Hs. unfold load64, in_bounds. rewrite repeat_length.
  destruct (Z.ltb_spec s (Z.of_nat words)) as [Hlt|Hge].
  - rewrite (proj2 (Z.leb_le 0 (8 * s))), (proj2 (Z.leb_le (8 * s + 8) _)) by lia.
    cbn [andb Z.leb]. f_equal. unfold peek64.
    replace (8 * words)%nat with (Z.to_nat (8 * s) + (8 + (8 * words - Z.to_nat (8 * s) - 8)))%nat
      by lia.
    rewrite !repeat_app, skipn_app, repeat_length, Nat.sub_diag, skipn_all2
      by (rewrite repeat_length; lia).
    cbn [skipn app]. rewrite firstn_app, repeat_length, Nat.sub_diag, firstn_all2
      by (rewrite repeat_length; lia).
    cbn [firstn]. rewrite app_nil_r. reflexivity.
  - rewrite (proj2 (Z.leb_gt (8 * s + 8) _)) by lia. now rewrite andb_false_r.
Qed.

(** From bit [b] of a word of one-bits, with [s] words fetched so far:
    each integer is a 1; the codeword in bit 63 takes a new word; the
    loop leaves the memory when the words are used up. *)
Lemma decode_loop_ones ib words : forall n total b un s,
  31 <= ib -> 0 <= b <= 63 -> 0 <= s <= Z.of_nat words ->
  omap snd (decode_loop ib (repeat Byte.xff (8 * words)) total
              (mk_decoder b un (Z.ones (64 - b)) s) n)
  = if Z.of_nat n + b <? 64 + 63 * (Z.of_nat words - s)
    then Ok (repeat 1 n) else Undefined OutOfBounds.
Proof.
  induction n as [|n IH]; intros total b un s Hib Hb Hs.
  - cbn [decode_loop omap bind snd repeat].
    now rewrite (proj2 (Z.ltb_lt _ _)) by lia.
  - cbn [decode_loop repeat]. unfold decode_value.
    destruct (Z.eq_dec b 63) as [->|Hne].
    + change (Z.ones (64 - 63)) with 1.
      rewrite decode_integer_ones_last, load64_ones by lia.
      destruct (Z.ltb_spec s (Z.of_nat words)) as [Hlt|Hge]; cbn [bind].
      * change (Z.shiftr (Z.ones 64) 1) with (Z.ones (64 - 1)).
        change (Z.lor (Z.land (Z.ones 64) 1) 1) with 1.
        rewrite (Z.mod_small 1 (2 ^ ib))
          by (split; [lia|]; apply (Z.pow_lt_mono_r 2 0 ib); lia).
        specialize (IH (count_iteration total) 1 0 (s + 1) Hib ltac:(lia) ltac:(lia)).
        destruct (decode_loop _ _ _ _ n) as [[[t d] xs]|] eqn:E; cbn [omap bind snd] in *.
        -- destruct (Z.ltb_spec (Z.of_nat n + 1) (64 + 63 * (Z.of_nat words - (s + 1))));
             [|discriminate].
           injection IH as ->.
           now rewrite (proj2 (Z.ltb_lt _ _)) by lia.
        -- destruct (Z.ltb_spec (Z.of_nat n + 1) (64 + 63 * (Z.of_nat words - (s + 1))));
             [discriminate|].
           injection IH as ->.
           now rewrite (proj2 (Z.ltb_ge _ _)) by lia.
      * cbn [omap bind]. now rewrite (proj2 (Z.ltb_ge _ _)) by lia.
    + rewrite decode_integer_ones by lia. cbn [bind].
      specialize (IH (count_iteration total) (b + 1) 0 s Hib ltac:(lia) ltac:(lia)).
      destruct (decode_loop _ _ _ _ n) as [[[t d] xs]|] eqn:E; cbn [omap bind snd] in *.
      * destruct (Z.ltb_spec (Z.of_nat n + (b + 1)) (64 + 63 * (Z.of_nat words - s)));
          [|discriminate].
        injection IH as ->.
        now rewrite (proj2 (Z.ltb_lt _ _)) by lia.
      * destruct (Z.ltb_spec (Z.of_nat n + (b + 1)) (64 + 63 * (Z.of_nat words - s)));
          [discriminate|].
        injection IH as ->.
        now rewrite (proj2 (Z.ltb_ge _ _)) by lia.
Qed.

Lemma decode_ones ib words n source_length :
  31 <= ib -> (0 < words)%nat ->
  decode ib n (repeat Byte.xff (8 * words)) source_length
  = if Z.of_nat n <? 64 + 63 * Z.of_nat words
    then Ok (repeat 1 n) else Undefined OutOfBounds.
Proof.
  intros Hib Hw. unfold decode, decode_from.
  change 0 with (8 * 0) at 1. rewrite load64_ones by lia.
  rewrite (proj2 (Z.ltb_lt 0 (Z.of_nat words))) by lia. cbn [bind].
  pose proof (decode_loop_ones ib words n 0 0 0 0 Hib ltac:(lia) ltac:(lia)) as H.
  change (Z.ones (64 - 0)) with (Z.ones 64) in H.
  rewrite Z.add_0_r, Z.sub_0_r in H. rewrite <- H. unfold omap.
  destruct (decode_loop _ _ _ _ n) as [[[t d] xs]|]; reflexivity.
Qed.

(** The low bits of the first word, from the bits of the memory. *)
Lemma peek64_low_bits m k c :
  0 <= c < 2 ^ k -> 0 <= k <= 64 ->
  (forall i, 0 <= i < k -> mem_bit m i = Z.testbit c i) ->
  peek64 m 0 mod 2 ^ k = c.
Proof.
  intros Hc Hk Hbits.
  unfold peek64. cbn [Z.to_nat skipn]. rewrite le_combine_firstn.
  change (8 * Z.of_nat 8) with 64. fold (mem_int m).
  apply Z.bits_inj'. intros i Hi.
  destruct (Z.lt_ge_cases i k) as [Hlt|Hge].
  - rewrite !Z.mod_pow2_bits_low by lia. apply Hbits. lia.
  - rewrite Z.mod_pow2_bits_high by lia. symmetry.
    apply (bit_above _ _ _ Hc). lia.
Qed.

(** * The claims *)

(** C1 (the code breaks the round-trip law): four integers 12345 take
    20 bits each, so the length field of the fourth codeword lies across
    bits 63 and 64.  [encode] writes the stream as specified, and [decode],
    whose first refill reads word 0 a second time, returns 925 for the
    fourth integer, for a 32-bit and for a 64-bit [integer]. *)
Theorem round_trip_broken :
  let S := [12345; 12345; 12345; 12345] in
  Forall (fun v => 1 <= v < 2 ^ 63) S
  /\ round_trip 32 (zeros 64) S = Ok [12345; 12345; 12345; 925]
  /\ round_trip 64 (zeros 64) S = Ok [12345; 12345; 12345; 925]
  /\ round_trip 32 (zeros 64) S <> Ok S
  /\ round_trip 64 (zeros 64) S <> Ok S.
Proof.
  cbv zeta. split; [repeat constructor; lia|].
  split; [vm_compute; reflexivity|]. split; [vm_compute; reflexivity|].
  split; vm_compute; discriminate.
Qed.

(** C2 (the code breaks the round trip across a word boundary): with 63,
    64 or 65 bits of codewords of 1 written before it, the codeword of
    1000000 (28 bits) lies across bit 64, and the decoder returns 7, 1 and
    1 for it. *)
Theorem boundary_crossing_broken :
  let before k := repeat 1 k ++ [1000000] in
  stream_bits (repeat 1 63) = 63 /\ stream_bits (repeat 1 64) = 64
  /\ stream_bits (repeat 1 65) = 65
  /\ round_trip 32 (zeros 64) (before 63%nat) = Ok (repeat 1 63 ++ [7])
  /\ round_trip 32 (zeros 64) (before 64%nat) = Ok (repeat 1 64 ++ [1])
  /\ round_trip 32 (zeros 64) (before 65%nat) = Ok (repeat 1 65 ++ [1])
  /\ round_trip 64 (zeros 64) (before 63%nat) = Ok (repeat 1 63 ++ [7])
  /\ round_trip 64 (zeros 64) (before 64%nat) = Ok (repeat 1 64 ++ [1])
  /\ round_trip 64 (zeros 64) (before 65%nat) = Ok (repeat 1 65 ++ [1]).
Proof.
  cbv zeta. repeat split; vm_compute; reflexivity.
Qed.

(** C3: for every integer [N >= 1] of a machine word, one iteration of
    [encode] advances the bit cursor by
    [2 * floor (log2 (floor (log2 N) + 1)) + floor (log2 N) + 1], which is
    [2u + 1 + (L - 1)]; for [N = 1] that is one bit. *)
Theorem codeword_length m into N :
  valid N -> 0 <= into -> into + codeword_bits N < 2 ^ 64 ->
  (into + codeword_bits N) / 8 + 8 <= Z.of_nat (length m) ->
  (exists m', encode_value m into N
              = Ok (m', into + (2 * Z.log2 (Z.log2 N + 1) + Z.log2 N + 1)))
  /\ 2 * Z.log2 (Z.log2 N + 1) + Z.log2 N + 1
     = 2 * unary_length N + 1 + (bit_length N - 1)
  /\ (N = 1 -> 2 * Z.log2 (Z.log2 N + 1) + Z.log2 N + 1 = 1).
Proof.
  intros HN Hi Hw Hroom.
  assert (E : 2 * Z.log2 (Z.log2 N + 1) + Z.log2 N + 1 = codeword_bits N)
    by (unfold codeword_bits, unary_length, bit_length; lia).
  split; [|split].
  - eexists. rewrite E. apply encode_value_eq; assumption.
  - rewrite E. reflexivity.
  - intros ->. reflexivity.
Qed.

Lemma codeword_length_witness :
  exists m', encode_value (zeros 16) 3 65536 = Ok (m', 3 + 25).
Proof.
  destruct (codeword_length (zeros 16) 3 65536) as [H _].
  - unfold valid. lia.
  - lia.
  - vm_compute. reflexivity.
  - vm_compute. discriminate.
  - exact H.
Defined.

(** C4: for every sequence of valid integers, [encode] returns the
    ceiling of the sum of the codeword lengths over 8: the least [r] with
    [8 * r] at least that sum; for the empty sequence that is 0. *)
Theorem encode_byte_length m cap seq :
  Forall valid seq -> 0 <= cap <= Z.of_nat (length m) ->
  stream_bits seq + 7 < 2 ^ 64 ->
  (seq <> [] -> stream_bits seq / 8 + 8 <= Z.of_nat (length m)) ->
  exists m' r, encode m cap seq = Ok (m', r)
    /\ 8 * (r - 1) < stream_bits seq <= 8 * r
    /\ (seq = [] -> r = 0).
Proof.
  intros Hv Hcap Hw Hroom.
  destruct (encode_returns m cap seq Hv Hcap Hw Hroom) as (m' & E & _).
  exists m', ((stream_bits seq + 7) / 8). split; [exact E|]. split.
  - pose proof (Z.div_mod (stream_bits seq + 7) 8 ltac:(lia)) as Hd.
    pose proof (Z.mod_pos_bound (stream_bits seq + 7) 8 ltac:(lia)). lia.
  - intros ->. reflexivity.
Qed.

Lemma encode_byte_length_witness :
  exists m' r, encode (zeros 16) 16 [1; 2; 3] = Ok (m', r)
    /\ 8 * (r - 1) < 9 <= 8 * r /\ ([1; 2; 3] = [] -> r = 0).
Proof.
  apply (encode_byte_length (zeros 16) 16 [1; 2; 3]).
  - repeat constructor; vm_compute; discriminate.
  - cbn. lia.
  - vm_compute. reflexivity.
  - intros _. vm_compute. discriminate.
Defined.

(** C5: [encode] lays [1; 2; 3] out as the bit 1, then 0 | 1 0 | 0, then
    0 | 1 0 | 1 (low bit first), in two bytes, and [decode] with count 3
    returns [1; 2; 3]. *)
Theorem example_1_2_3 :
  let m' := [Byte.x45; Byte.x01] ++ zeros 14 in
  encode (repeat Byte.xff 16) 16 [1; 2; 3] = Ok (m', 2)
  /\ stream_at m' 0 1 = [true]
  /\ stream_at m' 1 4 = [false; true; false; false]
  /\ stream_at m' 5 4 = [false; true; false; true]
  /\ decode 32 3 m' 2 = Ok [1; 2; 3]
  /\ decode 64 3 m' 2 = Ok [1; 2; 3].
Proof.
  cbv zeta. repeat split; vm_compute; reflexivity.
Qed.

(** C6, as the claim states it, fails: [encode] tests nothing before it
    takes the logarithm of a 0, so what it does with the sequence [0] is
    what entry 0 of the table [floor_log2_answer] makes of it.  For each of
    the 256 values [t] that entry can have: below 64, [encode] reports
    nothing and returns the encoding of [2 ^ t]; from 64 on, it runs into
    the shift [1ULL << t].  No value of the entry gives an error that was
    detected before the logarithm. *)
Lemma encode_zero_not_rejected :
  Forall (fun t =>
            floor_table (table_with t) = true
            /\ if t <? 64
               then tabled.encode (table_with t) (zeros 16) 16 [0]
                    = tabled.encode (table_with t) (zeros 16) 16 [2 ^ t]
                    /\ omap snd (tabled.encode (table_with t) (zeros 16) 16 [0])
                       = Ok ((codeword_bits (2 ^ t) + 7) / 8)
               else tabled.encode (table_with t) (zeros 16) 16 [0] = Undefined ShiftTooWide)
    (map Z.of_nat (seq 0 256))
  /\ table_with 0 = maths.floor_log2_answer.
Proof.
  split; [|reflexivity].
  cbv [map seq Z.of_nat Pos.of_succ_nat Pos.succ].
  repeat (apply Forall_cons;
          [split; [vm_compute; reflexivity|];
           vm_compute; first [reflexivity | split; reflexivity]|]).
  apply Forall_nil.
Qed.

(** C6, amended: [encode] has no check for 0 and no error to report; it
    takes the logarithm of each integer from the table, 0 included.  For
    every table whose entries 1 to 255 are the floor logarithms, with [t]
    its entry 0: if [t < 64], every 0 of the input is encoded as the
    integer [2 ^ t], so memory and returned length are those of the
    sequence with each 0 replaced by [2 ^ t]; if [t >= 64], a sequence
    that holds a 0 runs into undefined behaviour. *)
Theorem encode_zero_unchecked answer m cap seq :
  floor_table answer = true ->
  (nth 0 answer 0 < 64 ->
   tabled.encode answer m cap seq
   = tabled.encode answer m cap (map (zero_as (2 ^ nth 0 answer 0)) seq))
  /\ (64 <= nth 0 answer 0 -> In 0 seq ->
      exists u, tabled.encode answer m cap seq = Undefined u).
Proof.
  intros Ht. split.
  - intros H64. unfold tabled.encode.
    destruct (memset0 m cap) as [m0|]; cbn [bind]; [|reflexivity].
    now rewrite <- tabled_encode_loop_zero.
  - intros H64 Hin. unfold tabled.encode.
    destruct (memset0 m cap) as [m0|]; cbn [bind]; [|eauto].
    destruct (tabled_encode_loop_zero_wide answer seq m0 0 Ht H64 Hin) as [u ->].
    cbn [bind]. eauto.
Qed.

Lemma encode_zero_unchecked_witness :
  tabled.encode (table_with 1) (zeros 16) 16 [5; 0; 7]
  = tabled.encode (table_with 1) (zeros 16) 16 [5; 2; 7]
  /\ encode (zeros 16) 16 [5; 0; 7] = encode (zeros 16) 16 [5; 1; 7]
  /\ exists u, tabled.encode (table_with 64) (zeros 16) 16 [5; 0; 7] = Undefined u.
Proof.
  split; [|split].
  - destruct (encode_zero_unchecked (table_with 1) (zeros 16) 16 [5; 0; 7]
                ltac:(vm_compute; reflexivity)) as [H _].
    apply H. vm_compute. reflexivity.
  - destruct (encode_zero_unchecked maths.floor_log2_answer (zeros 16) 16 [5; 0; 7]
                ltac:(vm_compute; reflexivity)) as [H _].
    apply H. vm_compute. reflexivity.
  - destruct (encode_zero_unchecked (table_with 64) (zeros 16) 16 [5; 0; 7]
                ltac:(vm_compute; reflexivity)) as [_ H].
    apply H; [vm_compute; discriminate | right; left; reflexivity].
Defined.

(** C7, as the claim states it, fails: the buffer that [encode] returns
    for eight integers 1 is one byte; asked for nine integers with
    [source_length] 1, [decode] reports nothing and returns nine integers.
    The ninth comes from the byte after the buffer: with 02 there it is
    a 2. *)
Lemma decode_reads_past_source_length :
  let m := repeat Byte.xff 16 in
  encode m 1 (repeat 1 8) = Ok (m, 1)
  /\ decode 32 9 m 1 = Ok (repeat 1 9)
  /\ decode 64 9 m 1 = Ok (repeat 1 9)
  /\ decode 32 9 (Byte.xff :: Byte.x02 :: zeros 14) 1 = Ok (repeat 1 8 ++ [2])
  /\ decode 64 9 (Byte.xff :: Byte.x02 :: zeros 14) 1 = Ok (repeat 1 8 ++ [2]).
Proof. cbv zeta. repeat split; vm_compute; reflexivity. Qed.

(** C7, amended: [decode] has no error to report and no bound on what it
    reads but the end of the memory; for every [source_length], also 0 or
    one that ends before the codewords do:
    - it returns the integers whose codewords lie in the first 63 bits of
      the memory at [source] (integers below 2^31), wherever in those 8
      bytes [source_length] ends;
    - on a memory of [words] 64-bit words of one-bits it returns [n]
      integers 1 for every [n] below [64 + 63 * words], taking word after
      word (the first one twice), and for a larger [n] it goes on to read
      after the last word of the memory. *)
Theorem decode_not_bounded_by_source_length ib source_length :
  31 <= ib ->
  (forall m seq,
     Forall small seq -> stream_bits seq <= 63 -> 8 <= Z.of_nat (length m) ->
     (forall i, 0 <= i < stream_bits seq -> mem_bit m i = Z.testbit (stream_code seq) i) ->
     decode ib (length seq) m source_length = Ok seq)
  /\ (forall words n, (0 < words)%nat ->
        decode ib n (repeat Byte.xff (8 * words)) source_length
        = if Z.of_nat n <? 64 + 63 * Z.of_nat words
          then Ok (repeat 1 n) else Undefined OutOfBounds).
Proof.
  intros Hib. split.
  - intros m seq Hs Hb Hm Hbits.
    assert (Hvalid : Forall valid seq)
      by (eapply Forall_impl; [|exact Hs]; apply small_valid).
    pose proof (stream_bits_nonneg seq Hvalid) as Hsb.
    apply decode_low_bits; try assumption.
    apply peek64_low_bits; [apply stream_code_bounds; exact Hvalid | lia | exact Hbits].
  - intros words n Hw. now apply decode_ones.
Qed.

Lemma decode_not_bounded_by_source_length_witness :
  decode 32 (length [5; 6; 7]) ([Byte.xce; Byte.x7a] ++ repeat Byte.xff 6) 1
  = Ok [5; 6; 7]
  /\ decode 32 126 (repeat Byte.xff 8) 1 = Ok (repeat 1 126)
  /\ decode 32 127 (repeat Byte.xff 8) 1 = Undefined OutOfBounds.
Proof.
  destruct (decode_not_bounded_by_source_length 32 1 ltac:(lia)) as [H1 H2].
  split; [|split].
  - apply (H1 ([Byte.xce; Byte.x7a] ++ repeat Byte.xff 6) [5; 6; 7]).
    + repeat constructor; vm_compute; discriminate.
    + vm_compute. discriminate.
    + vm_compute. discriminate.
    + intros i Hi.
      apply (forallb_range
               (fun i => Bool.eqb (mem_bit ([Byte.xce; Byte.x7a] ++ repeat Byte.xff 6) i)
                           (Z.testbit (stream_code [5; 6; 7]) i)) 15) in Hi.
      * now apply Bool.eqb_prop in Hi.
      * vm_compute. reflexivity.
  - exact (H2 1%nat 126%nat ltac:(lia)).
  - exact (H2 1%nat 127%nat ltac:(lia)).
Defined.

(** C8, as the claim states it, fails: [1; 2; 3] needs two bytes; with a
    capacity of one byte [encode] reports nothing, returns 2 and sets
    bit 8 of the memory, the first bit after the capacity. *)
Lemma encode_writes_past_capacity :
  let m := zeros 16 in
  encode m 1 [1; 2; 3] = Ok ([Byte.x45; Byte.x01] ++ zeros 14, 2)
  /\ mem_bit m 8 = false
  /\ mem_bit ([Byte.x45; Byte.x01] ++ zeros 14) 8 = true.
Proof. cbv zeta. repeat split; vm_compute; reflexivity. Qed.

(** C8, amended: the capacity bounds the zero fill and nothing else.  For
    every sequence of valid integers and every capacity smaller than the
    encoded byte length, [encode] returns that byte length without an
    error; and when the integers are below 2^58 every bit of the stream is
    OR-ed into the memory, so the bits past the capacity land on what the
    memory held there. *)
Theorem encode_ignores_capacity m cap seq :
  Forall valid seq -> 0 <= cap < (stream_bits seq + 7) / 8 ->
  stream_bits seq + 7 < 2 ^ 64 ->
  stream_bits seq / 8 + 8 <= Z.of_nat (length m) ->
  exists m', encode m cap seq = Ok (m', (stream_bits seq + 7) / 8)
    /\ length m' = length m
    /\ (Forall fits seq ->
        forall i, 0 <= i ->
          mem_bit m' i = (if i <? 8 * cap then false else mem_bit m i)
                         || Z.testbit (stream_code seq) i).
Proof.
  intros Hv Hcap Hw Hroom.
  assert (Hc : 0 <= cap <= Z.of_nat (length m)).
  { split; [lia|].
    assert ((stream_bits seq + 7) / 8 <= stream_bits seq / 8 + 1).
    { pose proof (Z.div_le_mono (stream_bits seq + 7) (stream_bits seq + 1 * 8) 8
                    ltac:(lia) ltac:(lia)) as H.
      rewrite Z.div_add in H by lia. exact H. }
    lia. }
  destruct (encode_returns m cap seq Hv Hc Hw ltac:(intros _; exact Hroom)) as (m' & E & Hl).
  exists m'. split; [exact E|]. split; [exact Hl|].
  intros Hf. destruct (encode_effect m cap seq Hf Hc Hw Hroom) as (m'' & E' & _ & Hbits).
  rewrite E in E'. injection E' as <-. exact Hbits.
Qed.

Lemma encode_ignores_capacity_witness :
  exists m', encode (repeat Byte.x10 16) 1 [1; 2; 3] = Ok (m', 2)
    /\ length m' = 16%nat
    /\ (Forall fits [1; 2; 3] ->
        forall i, 0 <= i ->
          mem_bit m' i = (if i <? 8 * 1 then false else mem_bit (repeat Byte.x10 16) i)
                         || Z.testbit (stream_code [1; 2; 3]) i).
Proof.
  apply (encode_ignores_capacity (repeat Byte.x10 16) 1 [1; 2; 3]).
  - repeat constructor; vm_compute; discriminate.
  - vm_compute. split; [discriminate | reflexivity].
  - vm_compute. reflexivity.
  - vm_compute. discriminate.
Defined.

(** C9, as the claim states it, fails: equal named inputs do not make
    equal outputs.  With the same sequence and the same capacity of one
    byte, [encode] returns 2 both times, and the second of those two bytes
    is 01 or ff with what the memory held before; with the same buffer of
    one byte, the same count 9 and the same length 1, [decode] returns
    nine integers 1, or a 2 as the ninth, or runs into an undefined
    shift, with the bytes that follow the buffer. *)
Lemma codec_depends_on_memory_outside :
  encode (zeros 16) 1 [1; 2; 3] = Ok ([Byte.x45; Byte.x01] ++ zeros 14, 2)
  /\ encode (repeat Byte.xff 16) 1 [1; 2; 3]
     = Ok ([Byte.x45; Byte.xff] ++ repeat Byte.xff 14, 2)
  /\ firstn 1 (repeat Byte.xff 16) = [Byte.xff]
  /\ firstn 1 (Byte.xff :: Byte.x02 :: zeros 14) = [Byte.xff]
  /\ firstn 1 (Byte.xff :: zeros 15) = [Byte.xff]
  /\ decode 32 9 (repeat Byte.xff 16) 1 = Ok (repeat 1 9)
  /\ decode 32 9 (Byte.xff :: Byte.x02 :: zeros 14) 1 = Ok (repeat 1 8 ++ [2])
  /\ decode 32 9 (Byte.xff :: zeros 15) 1 = Undefined ShiftTooWide.
Proof. repeat split; vm_compute; reflexivity. Qed.

(** C9, amended: no state that outlives a call reaches the results, and
    what the destination held before the call reaches none of the bytes
    inside the capacity.  On two memories of one size [encode] is undefined
    for the same reason or returns the same length and leaves the same first
    [capacity] bytes, hence the same returned bytes when the capacity holds
    them; and [decode] returns the same integers from the same memory at
    [source] whatever its static counter had reached in earlier calls.
    The bytes that [encode] writes after the capacity, and the integers
    that [decode] reads from the bytes after [source_length], are as the
    memory there makes them. *)
Theorem codec_deterministic m1 m2 cap seq t1 t2 ib n m source_length :
  length m1 = length m2 ->
  related (fun r1 r2 => firstn (Z.to_nat cap) (fst r1) = firstn (Z.to_nat cap) (fst r2)
                        /\ snd r1 = snd r2
                        /\ (snd r1 <= cap ->
                            firstn (Z.to_nat (snd r1)) (fst r1)
                            = firstn (Z.to_nat (snd r1)) (fst r2)))
    (encode m1 cap seq) (encode m2 cap seq)
  /\ omap snd (decode_from t1 ib n m source_length)
     = omap snd (decode_from t2 ib n m source_length).
Proof.
  intros Hlen. split.
  - pose proof (agree_encode m1 m2 cap seq Hlen) as H.
    destruct (encode m1 cap seq) as [[a1 r1]|], (encode m2 cap seq) as [[a2 r2]|];
      cbn [related fst snd] in *; try assumption.
    destruct H as [[_ Hf] Hr]. split; [exact Hf|]. split; [exact Hr|].
    intros Hle.
    replace (Z.to_nat r1) with (Nat.min (Z.to_nat r1) (Z.to_nat cap)) by lia.
    rewrite <- !firstn_firstn. now rewrite Hf.
  - unfold decode_from.
    destruct (load64 m 0) as [w|]; cbn [bind omap]; [|reflexivity].
    pose proof (decode_loop_counter ib m n t1 t2 (mk_decoder 0 0 w 0)) as H.
    destruct (decode_loop ib m t1 (mk_decoder 0 0 w 0) n) as [[[ta da] xa]|],
             (decode_loop ib m t2 (mk_decoder 0 0 w 0) n) as [[[tb db] xb]|];
      cbn [bind omap fst snd] in *; congruence.
Qed.

Lemma codec_deterministic_witness :
  related (fun r1 r2 => firstn 2 (fst r1) = firstn 2 (fst r2)
                        /\ snd r1 = snd r2
                        /\ (snd r1 <= 2 ->
                            firstn (Z.to_nat (snd r1)) (fst r1)
                            = firstn (Z.to_nat (snd r1)) (fst r2)))
    (encode (zeros 16) 2 [1; 2; 3]) (encode (repeat Byte.xff 16) 2 [1; 2; 3])
  /\ omap snd (decode_from 0 32 3 ([Byte.x45; Byte.x01] ++ zeros 14) 2)
     = omap snd (decode_from 15 32 3 ([Byte.x45; Byte.x01] ++ zeros 14) 2).
Proof.
  apply (codec_deterministic (zeros 16) (repeat Byte.xff 16) 2 [1; 2; 3] 0 15 32 3
           ([Byte.x45; Byte.x01] ++ zeros 14) 2).
  reflexivity.
Defined.

(** C10: [decode] never reads its [source_length] argument: for any two
    values of it the integers produced, and the undefined cases, are the
    same. *)
Theorem decode_ignores_source_length ib n m total L1 L2 :
  decode ib n m L1 = decode ib n m L2
  /\ decode_from total ib n m L1 = decode_from total ib n m L2.
Proof. split; reflexivity. Qed.

(** * Further properties *)

(** ** The memory encode touches *)

Lemma or64_out m addr pattern :
  Z.of_nat (length m) < addr + 8 -> or64 m addr pattern = Undefined OutOfBounds.
Proof.
  intros H. unfold or64, load64, in_bounds.
  rewrite (proj2 (Z.leb_gt (addr + 8) (Z.of_nat (length m)))) by lia.
  now rewrite andb_false_r.
Qed.

Lemma div8_le a b : a <= b -> a / 8 <= b / 8.
Proof. intros H. apply Z.div_le_mono; lia. Qed.

Lemma encode_value_sharp m into N :
  valid N -> 0 <= into -> into + codeword_bits N < 2 ^ 64 ->
  (into + 2 * unary_length N + 1) / 8 + 8 <= Z.of_nat (length m) ->
  encode_value m into N =
    Ok (write_field (write_field m (into + unary_length N) (zig_zag_of N))
          (into + 2 * unary_length N + 1) (value_field_of N),
        into + codeword_bits N).
Proof.
  intros HN Hi Hw Hroom.
  pose proof (bit_length_bounds N HN) as HL.
  pose proof (unary_length_bounds N HN) as HU.
  assert (Hcw : codeword_bits N = 2 * unary_length N + 1 + (bit_length N - 1)) by reflexivity.
  pose proof (div8_le (into + unary_length N) (into + 2 * unary_length N + 1) ltac:(lia)) as H1.
  assert (H0 : 0 <= (into + unary_length N) / 8) by (apply Z.div_pos; lia).
  unfold encode_value.
  rewrite floor_log2_correct by (unfold valid in HN; lia). cbn [bind].
  fold (bit_length N).
  rewrite (u64_small (bit_length N)), (u32_small (bit_length N)) by lia.
  rewrite floor_log2_correct by lia. cbn [bind].
  fold (unary_length N).
  rewrite (u32_small (unary_length N)), (u32_small (unary_length N + 1)),
    (u32_small (bit_length N - 1)) by lia.
  rewrite (u64_small (into + unary_length N)) by lia.
  rewrite (u64_small (into + unary_length N + (unary_length N + 1))) by lia.
  rewrite u64_small by lia.
  rewrite shl_int_ok by lia. cbn [bind].
  rewrite shl_u64_ok by shift_in_byte. cbn [bind].
  rewrite or64_ok by lia. cbn [bind].
  rewrite shl_u64_ok by lia. cbn [bind].
  rewrite shl_u64_ok by shift_in_byte. cbn [bind].
  replace (into + unary_length N + (unary_length N + 1))
    with (into + 2 * unary_length N + 1) by lia.
  rewrite or64_ok.
  - cbn [bind]. do 2 f_equal. lia.
  - lia.
  - rewrite length_poke64; lia.
Qed.

Lemma encode_value_out m into N :
  valid N -> 0 <= into -> into + codeword_bits N < 2 ^ 64 ->
  Z.of_nat (length m) < (into + 2 * unary_length N + 1) / 8 + 8 ->
  encode_value m into N = Undefined OutOfBounds.
Proof.
  intros HN Hi Hw Hout.
  pose proof (bit_length_bounds N HN) as HL.
  pose proof (unary_length_bounds N HN) as HU.
  assert (Hcw : codeword_bits N = 2 * unary_length N + 1 + (bit_length N - 1)) by reflexivity.
  assert (H0 : 0 <= (into + unary_length N) / 8) by (apply Z.div_pos; lia).
  unfold encode_value.
  rewrite floor_log2_correct by (unfold valid in HN; lia). cbn [bind].
  fold (bit_length N).
  rewrite (u64_small (bit_length N)), (u32_small (bit_length N)) by lia.
  rewrite floor_log2_correct by lia. cbn [bind].
  fold (unary_length N).
  rewrite (u32_small (unary_length N)), (u32_small (unary_length N + 1)),
    (u32_small (bit_length N - 1)) by lia.
  rewrite (u64_small (into + unary_length N)) by lia.
  rewrite (u64_small (into + unary_length N + (unary_length N + 1))) by lia.
  rewrite shl_int_ok by lia. cbn [bind].
  rewrite shl_u64_ok by shift_in_byte. cbn [bind].
  destruct (Z.lt_ge_cases (Z.of_nat (length m)) ((into + unary_length N) / 8 + 8)) as [Hf|Hf].
  - rewrite or64_out by lia. reflexivity.
  - rewrite or64_ok by lia. cbn [bind].
    rewrite shl_u64_ok by lia. cbn [bind].
    rewrite shl_u64_ok by shift_in_byte. cbn [bind].
    replace (into + unary_length N + (unary_length N + 1))
      with (into + 2 * unary_length N + 1) by lia.
    rewrite or64_out; [reflexivity|]. rewrite length_poke64; lia.
Qed.

Lemma reach_nonneg : forall seq into, 0 <= reach into seq.
Proof.
  induction seq as [|N seq IH]; intros into; cbn [reach]; [lia|].
  specialize (IH (into + codeword_bits N)). lia.
Qed.

Lemma encode_loop_reach : forall seq m into,
  Forall valid seq -> 0 <= into -> into + stream_bits seq < 2 ^ 64 ->
  (reach into seq <= Z.of_nat (length m) ->
   exists m', encode_loop m into seq = Ok (m', into + stream_bits seq)
              /\ length m' = length m)
  /\ (Z.of_nat (length m) < reach into seq ->
      encode_loop m into seq = Undefined OutOfBounds).
Proof.
  induction seq as [|N seq IH]; intros m into Hv Hi Hw;
    cbn [encode_loop stream_bits reach] in *.
  - split; [|lia]. intros _. exists m. now rewrite Z.add_0_r.
  - inversion Hv as [|? ? HN Hv']; subst.
    pose proof (codeword_bits_bounds N HN) as Hc.
    pose proof (stream_bits_nonneg seq Hv') as Hs.
    pose proof (reach_nonneg seq (into + codeword_bits N)) as Hr.
    destruct (Z.lt_ge_cases (Z.of_nat (length m)) ((into + 2 * unary_length N + 1) / 8 + 8))
      as [Hout|Hin].
    + split; [lia|]. intros _.
      rewrite encode_value_out by (assumption || lia). reflexivity.
    + pose proof (encode_value_sharp m into N HN Hi ltac:(lia) ltac:(lia)) as E.
      rewrite E. cbn [bind]. apply length_encode_value in E.
      destruct (IH (write_field (write_field m (into + unary_length N) (zig_zag_of N))
                      (into + 2 * unary_length N + 1) (value_field_of N))
                  (into + codeword_bits N) Hv' ltac:(lia) ltac:(lia)) as [IH1 IH2].
      rewrite E in IH1, IH2. split.
      * intros Hle. destruct (IH1 ltac:(lia)) as (m' & Em & Hlen).
        exists m'. rewrite Em. split; [do 2 f_equal; lia|congruence].
      * intros Hlt. apply IH2. lia.
Qed.

Lemma stream_bits_last : forall seq,
  Forall valid seq -> seq <> [] ->
  2 * unary_length (last seq 1) + 1 + (bit_length (last seq 1) - 1) <= stream_bits seq.
Proof.
  induction seq as [|N seq IH]; intros Hv Hne; [congruence|].
  inversion Hv as [|? ? HN Hv']; subst.
  pose proof (codeword_bits_bounds N HN) as Hc.
  destruct seq as [|N' seq].
  - cbn [last stream_bits]. unfold codeword_bits. lia.
  - specialize (IH Hv' ltac:(discriminate)).
    change (last (N :: N' :: seq) 1) with (last (N' :: seq) 1).
    change (stream_bits (N :: N' :: seq)) with (codeword_bits N + stream_bits (N' :: seq)).
    lia.
Qed.

Lemma reach_footprint : forall seq into,
  Forall valid seq -> seq <> [] -> 0 <= into ->
  reach into seq = (into + stream_bits seq - (bit_length (last seq 1) - 1)) / 8 + 8.
Proof.
  induction seq as [|N seq IH]; intros into Hv Hne Hi; [congruence|].
  inversion Hv as [|? ? HN Hv']; subst.
  pose proof (codeword_bits_bounds N HN) as Hc.
  pose proof (unary_length_bounds N HN) as HU.
  destruct seq as [|N' seq].
  - cbn [reach last stream_bits]. unfold codeword_bits.
    replace (into + (2 * unary_length N + 1 + (bit_length N - 1) + 0) - (bit_length N - 1))
      with (into + 2 * unary_length N + 1) by lia.
    pose proof (Z.div_pos (into + 2 * unary_length N + 1) 8 ltac:(lia) ltac:(lia)). lia.
  - change (reach into (N :: N' :: seq))
      with (Z.max ((into + 2 * unary_length N + 1) / 8 + 8)
                  (reach (into + codeword_bits N) (N' :: seq))).
    rewrite IH by (assumption || discriminate || lia).
    change (last (N :: N' :: seq) 1) with (last (N' :: seq) 1).
    change (stream_bits (N :: N' :: seq)) with (codeword_bits N + stream_bits (N' :: seq)).
    pose proof (stream_bits_last (N' :: seq) Hv' ltac:(discriminate)) as Hl.
    inversion Hv' as [|? ? HN' _]; subst.
    assert (HUl : 0 <= unary_length (last (N' :: seq) 1)).
    { unfold unary_length. apply Z.log2_nonneg. }
    pose proof (div8_le (into + 2 * unary_length N + 1)
                  (into + codeword_bits N + stream_bits (N' :: seq)
                   - (bit_length (last (N' :: seq) 1) - 1))
                  ltac:(unfold codeword_bits in *; pose proof (bit_length_bounds N HN); lia)) as Hd.
    rewrite Z.max_r by lia. do 2 f_equal. lia.
Qed.

Lemma encode_defined_iff m cap seq :
  Forall valid seq -> stream_bits seq + 7 < 2 ^ 64 -> 0 <= cap ->
  (cap <= Z.of_nat (length m) /\ footprint seq <= Z.of_nat (length m) ->
   exists m', encode m cap seq = Ok (m', (stream_bits seq + 7) / 8)
              /\ length m' = length m)
  /\ (Z.of_nat (length m) < cap \/ Z.of_nat (length m) < footprint seq ->
      encode m cap seq = Undefined OutOfBounds).
Proof.
  intros Hv Hw Hcap.
  pose proof (stream_bits_nonneg seq Hv) as Hs.
  assert (Hfp : reach 0 seq = footprint seq).
  { destruct seq as [|N seq]; [reflexivity|].
    rewrite reach_footprint by (assumption || discriminate || lia). reflexivity. }
  unfold encode, memset0.
  destruct (Z.le_gt_cases cap (Z.of_nat (length m))) as [Hc|Hc].
  - rewrite in_bounds_true by lia. cbn [bind].
    set (m0 := repeat Byte.x00 (Z.to_nat cap) ++ skipn (Z.to_nat cap) m).
    assert (Hl0 : length m0 = length m).
    { unfold m0. rewrite length_app, repeat_length, length_skipn. lia. }
    destruct (encode_loop_reach seq m0 0 Hv ltac:(lia) ltac:(lia)) as [H1 H2].
    rewrite Hfp, Hl0 in H1, H2. split.
    + intros [_ Hf]. destruct (H1 Hf) as (m' & E & Hl).
      rewrite E. cbn [bind]. rewrite Z.add_0_l, u64_small by lia.
      exists m'. split; [reflexivity|congruence].
    + intros [Hlt|Hlt]; [lia|]. rewrite (H2 Hlt). reflexivity.
  - split; [lia|]. intros _. unfold in_bounds.
    rewrite (proj2 (Z.leb_gt (0 + cap) (Z.of_nat (length m)))) by lia.
    now rewrite andb_false_r.
Qed.

(** X1: The memory [encode] needs, exactly: it returns when the capacity and
    the footprint of the sequence lie inside the memory, and runs out of
    bounds otherwise. *)
Theorem encode_footprint m cap seq :
  Forall valid seq -> stream_bits seq + 7 < 2 ^ 64 -> 0 <= cap ->
  ((exists m', encode m cap seq = Ok (m', (stream_bits seq + 7) / 8))
   <-> cap <= Z.of_nat (length m) /\ footprint seq <= Z.of_nat (length m))
  /\ (forall m' r, encode m cap seq = Ok (m', r) ->
        r = (stream_bits seq + 7) / 8 /\ length m' = length m)
  /\ (forall u, encode m cap seq = Undefined u -> u = OutOfBounds).
Proof.
  intros Hv Hw Hcap.
  destruct (encode_defined_iff m cap seq Hv Hw Hcap) as [Hin Hout].
  assert (Hcases : (cap <= Z.of_nat (length m) /\ footprint seq <= Z.of_nat (length m))
                   \/ (Z.of_nat (length m) < cap \/ Z.of_nat (length m) < footprint seq))
    by lia.
  destruct Hcases as [Hok|Hbad].
  - destruct (Hin Hok) as (m1 & E & Hl). rewrite E. split; [|split].
    + split; [intros _; exact Hok | intros _; exists m1; reflexivity].
    + intros m' r [= <- <-]. split; [reflexivity | exact Hl].
    + intros u [=].
  - rewrite (Hout Hbad). split; [|split].
    + split; [intros [m1 [=]] | intros Hok; lia].
    + intros m' r [=].
    + intros u [= <-]. reflexivity.
Qed.

Lemma encode_footprint_witness :
  (exists m', encode (zeros 9) 2 [1; 2; 3] = Ok (m', (stream_bits [1; 2; 3] + 7) / 8))
  <-> 2 <= Z.of_nat (length (zeros 9)) /\ footprint [1; 2; 3] <= Z.of_nat (length (zeros 9)).
Proof.
  apply (encode_footprint (zeros 9) 2 [1; 2; 3]).
  - repeat constructor; vm_compute; discriminate.
  - vm_compute. reflexivity.
  - lia.
Defined.

(** X2: The last OR of [encode] ends past the encoded length: for integers
    below 2^50 a memory that ends where the encoded bytes end is overrun,
    whatever the capacity. *)
Theorem encode_overruns_encoded_length m cap seq :
  Forall (fun N => 1 <= N < 2 ^ 50) seq -> seq <> [] ->
  stream_bits seq + 7 < 2 ^ 64 -> 0 <= cap ->
  Z.of_nat (length m) <= (stream_bits seq + 7) / 8 ->
  encode m cap seq = Undefined OutOfBounds.
Proof.
  intros H50 Hne Hw Hcap Hlen.
  assert (Hv : Forall valid seq).
  { eapply Forall_impl; [|exact H50]. unfold valid. intros; lia. }
  apply (encode_defined_iff m cap seq Hv Hw Hcap). right.
  assert (Hlast : bit_length (last seq 1) <= 50).
  { assert (Hin : In (last seq 1) seq).
    { clear - Hne. induction seq as [|a [|b seq] IH]; [congruence|left; reflexivity|].
      right. apply IH. discriminate. }
    rewrite Forall_forall in H50. specialize (H50 _ Hin).
    unfold bit_length. assert (Z.log2 (last seq 1) < 50) by (apply Z.log2_lt_pow2; lia). lia. }
  destruct seq as [|N seq]; [congruence|]. unfold footprint.
  set (b := stream_bits (N :: seq)) in *. set (l := bit_length (last (N :: seq) 1) - 1) in *.
  assert (Hb15 : (b + 15) / 8 = (b + 7) / 8 + 1).
  { replace (b + 15) with (b + 7 + 1 * 8) by lia. now rewrite Z.div_add by lia. }
  pose proof (div8_le (b + 15) (b - l + 64) ltac:(lia)) as Hd.
  replace (b - l + 64) with (b - l + 8 * 8) in Hd by lia.
  rewrite Z.div_add in Hd by lia. lia.
Qed.

Lemma encode_overruns_encoded_length_witness :
  encode (zeros 2) 2 [1; 2; 3] = Undefined OutOfBounds.
Proof.
  apply (encode_overruns_encoded_length (zeros 2) 2 [1; 2; 3]).
  - repeat constructor; vm_compute; discriminate.
  - discriminate.
  - vm_compute. reflexivity.
  - lia.
  - vm_compute. discriminate.
Defined.

(** ** The buffer encode leaves *)

Lemma mem_bit_skipn m (n : nat) i :
  0 <= i -> Z.testbit (le_combine (skipn n m)) i = mem_bit m (i + 8 * Z.of_nat n).
Proof.
  intros Hi. unfold mem_bit, mem_int.
  destruct (Nat.le_gt_cases n (length m)) as [Hn|Hn].
  - rewrite <- (firstn_skipn n m) at 2. rewrite le_combine_app, length_firstn.
    replace (Z.of_nat (Init.Nat.min n (length m)) * 8) with (8 * Z.of_nat n) by lia.
    rewrite Z.lor_spec, Z.shiftl_spec by lia.
    pose proof (le_combine_bound (firstn n m)) as Hb. rewrite length_firstn in Hb.
    rewrite (bit_above _ _ (i + 8 * Z.of_nat n) Hb) by lia. cbn [orb].
    f_equal. lia.
  - rewrite skipn_all2 by lia. rewrite le_combine_nil, Z.bits_0. symmetry.
    apply (bit_above _ _ _ (le_combine_bound m)). lia.
Qed.

(** X3: With a capacity that holds the stream, [encode] on integers below
    2^58 leaves in the buffer the bytes of the stream of codewords, low
    byte first, and changes no byte after the buffer. *)
Theorem encode_correct m cap seq :
  Forall fits seq ->
  (stream_bits seq + 7) / 8 <= cap <= Z.of_nat (length m) ->
  stream_bits seq + 7 < 2 ^ 64 ->
  stream_bits seq / 8 + 8 <= Z.of_nat (length m) ->
  encode m cap seq
  = Ok (le_split (Z.to_nat cap) (stream_code seq) ++ skipn (Z.to_nat cap) m,
        (stream_bits seq + 7) / 8).
Proof.
  intros Hf Hcap Hw Hroom.
  assert (Hv : Forall valid seq) by (eapply Forall_impl; [|exact Hf]; apply fits_valid).
  pose proof (stream_bits_nonneg seq Hv) as Hs.
  pose proof (stream_code_bounds seq Hv) as Hsc.
  assert (Hbytes : 0 <= (stream_bits seq + 7) / 8) by (apply Z.div_pos; lia).
  assert (Hcover : stream_bits seq <= 8 * cap).
  { pose proof (Z.div_mod (stream_bits seq + 7) 8 ltac:(lia)).
    pose proof (Z.mod_pos_bound (stream_bits seq + 7) 8 ltac:(lia)). lia. }
  destruct (encode_effect m cap seq Hf ltac:(lia) Hw Hroom) as (m' & E & Hlen & Hbits).
  rewrite E. do 2 f_equal.
  apply le_combine_inj.
  - rewrite length_app, length_le_split, length_skipn. lia.
  - apply Z.bits_inj'. intros i Hi.
    fold (mem_int m'). fold (mem_bit m' i). rewrite (Hbits i Hi).
    rewrite le_combine_app, length_le_split, le_combine_split.
    replace (Z.of_nat (Z.to_nat cap) * 8) with (8 * cap) by lia.
    rewrite Z.lor_spec.
    destruct (Z.ltb_spec i (8 * cap)) as [Hlt|Hge].
    + rewrite Z.mod_pow2_bits_low, Z.shiftl_spec_low by lia.
      now rewrite orb_false_r.
    + rewrite Z.mod_pow2_bits_high, Z.shiftl_spec by lia. cbn [orb].
      rewrite (bit_above _ _ i Hsc) by lia. rewrite orb_false_r.
      rewrite mem_bit_skipn by lia. f_equal. lia.
Qed.

Lemma encode_correct_witness :
  encode (repeat Byte.xff 16) 3 [1; 2; 3]
  = Ok (le_split 3 (stream_code [1; 2; 3]) ++ skipn 3 (repeat Byte.xff 16), 2).
Proof.
  apply (encode_correct (repeat Byte.xff 16) 3 [1; 2; 3]).
  - repeat constructor; vm_compute; discriminate.
  - vm_compute. split; discriminate.
  - vm_compute. reflexivity.
  - vm_compute. discriminate.
Defined.

(** ** The size of the encoding *)

Lemma word32_codeword_bits N : word32 N -> 1 <= codeword_bits N <= 42.
Proof.
  intros [H1 H2].
  assert (HL : 1 <= bit_length N <= 32).
  { unfold bit_length. pose proof (Z.log2_nonneg N).
    assert (Z.log2 N < 32) by (apply Z.log2_lt_pow2; lia). lia. }
  assert (HU : 0 <= unary_length N <= 5).
  { unfold unary_length. pose proof (Z.log2_nonneg (bit_length N)).
    assert (Z.log2 (bit_length N) < 6) by (apply Z.log2_lt_pow2; lia). lia. }
  unfold codeword_bits. lia.
Qed.

Lemma word32_stream_bits seq :
  Forall word32 seq ->
  Z.of_nat (length seq) <= stream_bits seq <= 42 * Z.of_nat (length seq).
Proof.
  induction 1 as [|N seq HN _ IH]; cbn [stream_bits length]; [lia|].
  pose proof (word32_codeword_bits N HN). lia.
Qed.

(** X4: For integers of 32 bits the byte count [encode] returns lies between
    one bit and 42 bits per integer. *)
Theorem encode_size_bounds m cap seq :
  Forall word32 seq -> 0 <= cap <= Z.of_nat (length m) ->
  42 * Z.of_nat (length seq) + 7 < 2 ^ 64 ->
  footprint seq <= Z.of_nat (length m) ->
  exists m' r, encode m cap seq = Ok (m', r)
    /\ Z.of_nat (length seq) <= 8 * r
    /\ 8 * r <= 42 * Z.of_nat (length seq) + 7.
Proof.
  intros H32 Hcap Hw Hf.
  assert (Hv : Forall valid seq).
  { eapply Forall_impl; [|exact H32]. unfold word32, valid. intros; lia. }
  pose proof (word32_stream_bits seq H32) as Hb.
  destruct (encode_defined_iff m cap seq Hv ltac:(lia) ltac:(lia)) as [H _].
  destruct (H ltac:(lia)) as (m' & E & _).
  exists m', ((stream_bits seq + 7) / 8). split; [exact E|].
  pose proof (Z.div_mod (stream_bits seq + 7) 8 ltac:(lia)).
  pose proof (Z.mod_pos_bound (stream_bits seq + 7) 8 ltac:(lia)). lia.
Qed.

Lemma encode_size_bounds_witness :
  exists m' r, encode (zeros 16) 16 [4294967295; 1] = Ok (m', r)
    /\ 2 <= 8 * r /\ 8 * r <= 42 * 2 + 7.
Proof.
  apply (encode_size_bounds (zeros 16) 16 [4294967295; 1]).
  - repeat constructor; vm_compute; discriminate.
  - cbn. lia.
  - cbn. lia.
  - vm_compute. discriminate.
Defined.

(** ** What decode returns inside the first word *)

(** X5: [decode] reads a stream through its codewords alone: when the low
    bits of the first word are the codewords of a sequence of integers
    below 2^31, 63 bits at most, it returns that sequence, whatever the
    bits after the stream and the rest of the memory hold. *)
Theorem decode_in_word ib m source_length seq :
  Forall small seq -> 31 <= ib -> stream_bits seq <= 63 ->
  8 <= Z.of_nat (length m) ->
  (forall i, 0 <= i < stream_bits seq -> mem_bit m i = Z.testbit (stream_code seq) i) ->
  decode ib (length seq) m source_length = Ok seq.
Proof.
  intros Hs Hib Hb Hm Hbits.
  assert (Hvalid : Forall valid seq)
    by (eapply Forall_impl; [|exact Hs]; apply small_valid).
  pose proof (stream_bits_nonneg seq Hvalid) as Hsb.
  pose proof (stream_code_bounds seq Hvalid) as Hsc.
  apply decode_low_bits; try assumption.
  unfold peek64. cbn [Z.to_nat skipn]. rewrite le_combine_firstn.
  change (8 * Z.of_nat 8) with 64. fold (mem_int m).
  apply Z.bits_inj'. intros i Hi.
  destruct (Z.lt_ge_cases i (stream_bits seq)) as [Hlt|Hge].
  - rewrite !Z.mod_pow2_bits_low by lia. apply Hbits. lia.
  - rewrite Z.mod_pow2_bits_high by lia. symmetry.
    apply (bit_above _ _ _ Hsc). lia.
Qed.

Lemma decode_in_word_witness :
  decode 32 (length [1; 2; 3]) ([Byte.x45; Byte.xff] ++ repeat Byte.xaa 8) 0
  = Ok [1; 2; 3].
Proof.
  apply (decode_in_word 32 ([Byte.x45; Byte.xff] ++ repeat Byte.xaa 8) 0 [1; 2; 3]).
  - repeat constructor; vm_compute; discriminate.
  - lia.
  - vm_compute. discriminate.
  - vm_compute. discriminate.
  - change (stream_bits [1; 2; 3]) with 9. intros i Hi.
    assert (Hc : i = 0 \/ i = 1 \/ i = 2 \/ i = 3 \/ i = 4 \/ i = 5 \/ i = 6 \/ i = 7 \/ i = 8)
      by lia.
    repeat (destruct Hc as [->|Hc]; [reflexivity|]). subst i. reflexivity.
Defined.

Lemma stream_bits_app a b : stream_bits (a ++ b) = stream_bits a + stream_bits b.
Proof. induction a as [|N a IH]; cbn [app stream_bits]; lia. Qed.

Lemma stream_code_app a b :
  Forall valid a ->
  stream_code (a ++ b) = Z.lor (stream_code a) (Z.shiftl (stream_code b) (stream_bits a)).
Proof.
  induction 1 as [|N a HN Hv IH]; cbn [app stream_code stream_bits].
  - now rewrite Z.shiftl_0_r.
  - pose proof (codeword_bits_bounds N HN). pose proof (stream_bits_nonneg a Hv).
    rewrite IH, Z.shiftl_lor, Z.shiftl_shiftl by lia.
    rewrite <- Z.lor_assoc. do 3 f_equal. lia.
Qed.

(** X6: Asked for fewer integers than the buffer holds, [decode] returns the
    first ones: after [encode] of a sequence inside the first 63 bits,
    decoding [k] integers gives the first [k] of the sequence. *)
Theorem decode_fewer ib m seq (k : nat) :
  Forall small seq -> 31 <= ib -> stream_bits seq <= 63 ->
  (15 <= length m)%nat -> (k <= length seq)%nat ->
  ('(m', source_length) <- encode m (Z.of_nat (length m)) seq ;;
   decode ib k m' source_length) = Ok (firstn k seq).
Proof.
  intros Hs Hib Hb Hm Hk.
  assert (Hvalid : Forall valid seq)
    by (eapply Forall_impl; [|exact Hs]; apply small_valid).
  assert (Hfits : Forall fits seq).
  { eapply Forall_impl; [|exact Hs]. unfold small, fits. intros; lia. }
  pose proof (stream_bits_nonneg seq Hvalid) as Hsb.
  pose proof (stream_code_bounds seq Hvalid) as Hsc.
  assert (Hdiv : stream_bits seq / 8 < 8) by (apply Z.div_lt_upper_bound; lia).
  destruct (encode_effect m (Z.of_nat (length m)) seq Hfits ltac:(lia) ltac:(lia) ltac:(lia))
    as (m' & E & Hlen & Hbits).
  rewrite E. cbn [bind].
  assert (Hw : peek64 m' 0 = stream_code seq).
  { unfold peek64. cbn [Z.to_nat skipn]. rewrite le_combine_firstn.
    change (8 * Z.of_nat 8) with 64. fold (mem_int m').
    apply Z.bits_inj'. intros i Hi.
    destruct (Z.lt_ge_cases i 64) as [Hlt|Hge].
    - rewrite Z.mod_pow2_bits_low by lia. fold (mem_bit m' i).
      rewrite Hbits by lia. rewrite (proj2 (Z.ltb_lt i _)) by lia. reflexivity.
    - rewrite Z.mod_pow2_bits_high by lia. symmetry.
      apply bit_above with (k := 63); [|lia].
      eapply below_weaken; [exact Hsc|lia]. }
  rewrite <- (firstn_skipn k seq) in Hw, Hb.
  assert (Hsplit : Forall small (firstn k seq) /\ Forall small (skipn k seq)).
  { apply Forall_app. now rewrite firstn_skipn. }
  destruct Hsplit as [Hs1 Hs2'].
  assert (Hs2 : Forall valid (skipn k seq))
    by (eapply Forall_impl; [|exact Hs2']; apply small_valid).
  assert (Hv1 : Forall valid (firstn k seq))
    by (eapply Forall_impl; [|exact Hs1]; apply small_valid).
  rewrite stream_bits_app in Hb. rewrite stream_code_app in Hw by exact Hv1.
  pose proof (stream_bits_nonneg _ Hv1). pose proof (stream_bits_nonneg _ Hs2).
  pose proof (stream_code_bounds _ Hv1) as Hb1.
  replace k with (length (firstn k seq)) at 1 by (rewrite length_firstn; lia).
  apply decode_low_bits; try assumption; try lia.
  rewrite Hw. rewrite <- Z.land_ones, Z.land_lor_distr_l, !Z.land_ones by lia.
  rewrite Z.mod_small by exact Hb1.
  rewrite Z.shiftl_mul_pow2, Z.mod_mul by lia.
  apply Z.lor_0_r.
Qed.

Lemma decode_fewer_witness :
  ('(m', source_length) <- encode (zeros 16) (Z.of_nat (length (zeros 16))) [5; 6; 7] ;;
   decode 32 2 m' source_length) = Ok (firstn 2 [5; 6; 7]).
Proof.
  apply (decode_fewer 32 (zeros 16) [5; 6; 7] 2).
  - repeat constructor; vm_compute; discriminate.
  - lia.
  - vm_compute. discriminate.
  - cbn. lia.
  - cbn. lia.
Defined.

(** ** The static counter and the first word of decode *)

Lemma count_iteration_u32 total : count_iteration total = u32 (total + 1).
Proof. unfold count_iteration. now destruct (total =? 15). Qed.

Lemma decode_loop_total ib m : forall n total d total' d' out,
  0 <= total < 2 ^ 32 ->
  decode_loop ib m total d n = Ok (total', d', out) ->
  total' = u32 (total + Z.of_nat n).
Proof.
  induction n as [|n IH]; intros total d total' d' out Ht; cbn [decode_loop].
  - intros [= <- _ _]. rewrite Z.add_0_r. symmetry. now apply u32_small.
  - unfold decode_value. rewrite count_iteration_u32.
    destruct (decode_integer ib m d) as [[d1 x]|]; cbn [bind]; [|discriminate].
    destruct (decode_loop ib m (u32 (total + 1)) d1 n) as [[[t2 d2] xs]|] eqn:E;
      cbn [bind]; [|discriminate].
    intros [= <- _ _].
    apply IH in E; [|apply Z.mod_pos_bound; reflexivity].
    rewrite E. unfold u32. rewrite Zplus_mod_idemp_l. f_equal. lia.
Qed.

(** X7: [decode] is not free of state: every call that returns has advanced
    the static counter [total] by the number of integers it decoded,
    modulo 2^32. *)
Theorem decode_advances_counter total ib n m source_length total' out :
  0 <= total < 2 ^ 32 ->
  decode_from total ib n m source_length = Ok (total', out) ->
  total' = (total + Z.of_nat n) mod 2 ^ 32.
Proof.
  intros Ht. unfold decode_from.
  destruct (load64 m 0) as [w|]; cbn [bind]; [|discriminate].
  destruct (decode_loop ib m total (mk_decoder 0 0 w 0) n) as [[[t d] xs]|] eqn:E;
    cbn [bind]; [|discriminate].
  intros [= <- _]. eapply decode_loop_total; eassumption.
Qed.

Lemma decode_advances_counter_witness : 2 = (4294967295 + Z.of_nat 3) mod 2 ^ 32.
Proof.
  apply (decode_advances_counter 4294967295 32 3 ([Byte.x45; Byte.x01] ++ zeros 14) 2
           2 [1; 2; 3]).
  - lia.
  - vm_compute. reflexivity.
Defined.

(** X8: [decode] loads the first 64-bit word before it looks at the count:
    with fewer than 8 bytes of memory at the source it is out of bounds
    for every count, the count 0 included; with 8 bytes the count 0 gives
    no integer. *)
Theorem decode_reads_first_word ib n m source_length :
  (Z.of_nat (length m) < 8 -> decode ib n m source_length = Undefined OutOfBounds)
  /\ (8 <= Z.of_nat (length m) -> decode ib 0 m source_length = Ok []).
Proof.
  unfold decode, decode_from, load64, in_bounds. split; intros H.
  - rewrite (proj2 (Z.leb_gt (0 + 8) (Z.of_nat (length m)))) by lia. reflexivity.
  - rewrite (proj2 (Z.leb_le (0 + 8) (Z.of_nat (length m)))) by lia. reflexivity.
Qed.

Lemma decode_reads_first_word_witness :
  decode 32 0 [] 0 = Undefined OutOfBounds /\ decode 32 0 (zeros 8) 0 = Ok [].
Proof.
  split.
  - apply (decode_reads_first_word 32 0 [] 0). cbn. lia.
  - apply (decode_reads_first_word 32 0 (zeros 8) 0). cbn. lia.
Defined.

(** ** maths: the table loops, max and min *)

(** X9: [ceiling_log2] keeps the table entry of the last iteration only: its
    result is the entry of the most significant non-zero byte of [x] plus
    8 times the position of that byte, for every table. *)
Theorem ceiling_log2_top_byte answer x :
  maths_rest.byte_table answer -> 0 <= x < 2 ^ 64 ->
  maths_rest.ceiling_log2 answer x
  = Ok (nth (Z.to_nat (x / 2 ^ (8 * (Z.log2 x / 8)))) answer 0 + 8 * (Z.log2 x / 8)).
Proof.
  intros [_ Ht] Hx. unfold maths_rest.ceiling_log2.
  rewrite ceiling_log2_loop_top; [now rewrite Z.add_0_r | exact Ht | exact Hx | lia | lia | cbn; lia].
Qed.

Lemma ceiling_log2_top_byte_witness :
  maths_rest.ceiling_log2 maths.floor_log2_answer 1000
  = Ok (nth (Z.to_nat (1000 / 2 ^ (8 * (Z.log2 1000 / 8)))) maths.floor_log2_answer 0
        + 8 * (Z.log2 1000 / 8)).
Proof.
  apply (ceiling_log2_top_byte maths.floor_log2_answer 1000).
  - split; [reflexivity|]. repeat constructor; vm_compute; discriminate.
  - lia.
Defined.

(** X10: No table makes [ceiling_log2] the ceiling of the binary logarithm
    beyond one byte: 256 and 257 share their most significant byte, so
    they get the same result, and their ceilings are 8 and 9. *)
Theorem ceiling_log2_not_ceiling answer :
  maths_rest.ceiling_log2 answer 256 = maths_rest.ceiling_log2 answer 257
  /\ ~ (forall x, 1 <= x < 2 ^ 16 -> maths_rest.ceiling_log2 answer x = Ok (Z.log2_up x)).
Proof.
  assert (E : maths_rest.ceiling_log2 answer 256 = maths_rest.ceiling_log2 answer 257)
    by reflexivity.
  split; [exact E|]. intros H.
  rewrite (H 256), (H 257) in E by lia. vm_compute in E. discriminate.
Qed.

(** X11: With the table of the floor logarithms of the bytes, [floor_log2]
    returns the position of the highest set bit of a non-zero [x]. *)
Theorem floor_log2_floor x :
  1 <= x < 2 ^ 64 ->
  exists r, maths.floor_log2 x = Ok r /\ 0 <= r < 64 /\ 2 ^ r <= x < 2 ^ (r + 1).
Proof.
  intros Hx. exists (Z.log2 x). split; [apply floor_log2_correct; lia|].
  pose proof (Z.log2_spec x ltac:(lia)) as Hs. pose proof (Z.log2_nonneg x).
  assert (Z.log2 x < 64) by (apply Z.log2_lt_pow2; lia).
  replace (Z.log2 x + 1) with (Z.succ (Z.log2 x)) by lia. lia.
Qed.

Lemma floor_log2_floor_witness :
  exists r, maths.floor_log2 10 = Ok r /\ 0 <= r < 64 /\ 2 ^ r <= 10 < 2 ^ (r + 1).
Proof. apply (floor_log2_floor 10). lia. Defined.

Section MaxMin.

Variable TYPE : Type.
Variable ge : TYPE -> TYPE -> bool.
Variable le : TYPE -> TYPE -> bool.

(** [operator>=] and [operator<=] of [TYPE] as total preorders. *)
Hypothesis ge_total : forall a b, ge a b = true \/ ge b a = true.
Hypothesis ge_trans : forall a b c, ge a b = true -> ge b c = true -> ge a c = true.
Hypothesis le_total : forall a b, le a b = true \/ le b a = true.
Hypothesis le_trans : forall a b c, le a b = true -> le b c = true -> le a c = true.

Lemma ge_refl a : ge a a = true.
Proof. now destruct (ge_total a a). Qed.

Lemma le_refl a : le a a = true.
Proof. now destruct (le_total a a). Qed.

Lemma max_upper a b :
  ge (maths_rest.max TYPE ge a b) a = true /\ ge (maths_rest.max TYPE ge a b) b = true.
Proof.
  unfold maths_rest.max. destruct (ge a b) eqn:E.
  - split; [apply ge_refl|exact E].
  - split; [|apply ge_refl]. destruct (ge_total a b); congruence.
Qed.

Lemma min_lower a b :
  le (maths_rest.min TYPE le a b) a = true /\ le (maths_rest.min TYPE le a b) b = true.
Proof.
  unfold maths_rest.min. destruct (le a b) eqn:E.
  - split; [apply le_refl|exact E].
  - split; [|apply le_refl]. destruct (le_total a b); congruence.
Qed.

(** X12: The maximum of three is one of the three, is [>=] each of them, and
    is the first parameter whenever that one is [>=] the other two: ties
    go to the earlier parameter. *)
Theorem max3_greatest a b c :
  let r := maths_rest.max3 TYPE ge a b c in
  (r = a \/ r = b \/ r = c)
  /\ ge r a = true /\ ge r b = true /\ ge r c = true
  /\ (ge a b = true -> ge a c = true -> r = a)
  /\ (ge a b = false -> ge b c = true -> r = b).
Proof.
  cbv zeta. unfold maths_rest.max3.
  destruct (max_upper a b) as [Ha Hb].
  destruct (max_upper (maths_rest.max TYPE ge a b) c) as [Hab Hc].
  repeat split.
  - unfold maths_rest.max. destruct (ge a b); [destruct (ge a c)|destruct (ge b c)]; auto.
  - exact (ge_trans _ _ _ Hab Ha).
  - exact (ge_trans _ _ _ Hab Hb).
  - exact Hc.
  - intros H1 H2. unfold maths_rest.max. now rewrite H1, H2.
  - intros H1 H2. unfold maths_rest.max. now rewrite H1, H2.
Qed.

(** X13: The minimum of three is one of the three, is [<=] each of them, and
    is the first parameter whenever that one is [<=] the other two. *)
Theorem min3_least a b c :
  let r := maths_rest.min3 TYPE le a b c in
  (r = a \/ r = b \/ r = c)
  /\ le r a = true /\ le r b = true /\ le r c = true
  /\ (le a b = true -> le a c = true -> r = a)
  /\ (le a b = false -> le b c = true -> r = b).
Proof.
  cbv zeta. unfold maths_rest.min3.
  destruct (min_lower a b) as [Ha Hb].
  destruct (min_lower (maths_rest.min TYPE le a b) c) as [Hab Hc].
  repeat split.
  - unfold maths_rest.min. destruct (le a b); [destruct (le a c)|destruct (le b c)]; auto.
  - exact (le_trans _ _ _ Hab Ha).
  - exact (le_trans _ _ _ Hab Hb).
  - exact Hc.
  - intros H1 H2. unfold maths_rest.min. now rewrite H1, H2.
  - intros H1 H2. unfold maths_rest.min. now rewrite H1, H2.
Qed.

End MaxMin.

Lemma geb_total a b : (a >=? b) = true \/ (b >=? a) = true.
Proof. destruct (Z.geb_spec a b); [left; reflexivity|right; apply Z.geb_le; lia]. Qed.

Lemma geb_trans a b c : (a >=? b) = true -> (b >=? c) = true -> (a >=? c) = true.
Proof. rewrite !Z.geb_le. lia. Qed.

Lemma leb_total a b : (a <=? b) = true \/ (b <=? a) = true.
Proof. destruct (Z.leb_spec a b); [left; reflexivity|right; apply Z.leb_le; lia]. Qed.

Lemma leb_trans a b c : (a <=? b) = true -> (b <=? c) = true -> (a <=? c) = true.
Proof. rewrite !Z.leb_le. lia. Qed.

Lemma max3_greatest_witness : maths_rest.max3 Z Z.geb 2 3 1 = 3.
Proof.
  apply (max3_greatest Z Z.geb geb_total geb_trans 2 3 1); reflexivity.
Defined.

Lemma min3_least_witness : maths_rest.min3 Z Z.leb 2 1 3 = 1.
Proof.
  apply (min3_least Z Z.leb leb_total leb_trans 2 1 3); reflexivity.
Defined.

(** ** evaluate_mean_reciprocal_rank *)

Import evaluate_mean_reciprocal_rank.

Lemma compute_from_first_index relevant query_id depth : forall results_list which,
  1 <= which <= Z.max 1 depth ->
  which + Z.of_nat (length results_list) < 2 ^ 64 ->
  compute_from relevant which query_id results_list depth
  = match first_index (relevant query_id)
            (firstn (Z.to_nat (Z.max 1 depth - which + 1)) results_list) with
    | Some i => one_over (which + Z.of_nat i)
    | None => zero
    end.
Proof.
  induction results_list as [|result results_list IH]; intros which Hw Hlen.
  - now rewrite firstn_nil.
  - cbn [compute_from length] in *.
    replace (Z.to_nat (Z.max 1 depth - which + 1))
      with (S (Z.to_nat (Z.max 1 depth - which))) by lia.
    cbn [firstn first_index].
    destruct (relevant query_id result).
    + now rewrite Z.add_0_r.
    + rewrite u64_small by lia.
      destruct (Z.ltb_spec depth (which + 1)) as [Hlt|Hge].
      * replace (Z.to_nat (Z.max 1 depth - which)) with 0%nat by lia. reflexivity.
      * rewrite IH by lia.
        replace (Z.max 1 depth - (which + 1) + 1) with (Z.max 1 depth - which) by lia.
        destruct (first_index _ _) as [i|]; cbn [option_map]; [|reflexivity].
        f_equal. lia.
Qed.

(** X14: [compute] returns the reciprocal of the rank of the first relevant
    result among the first [depth] results, where a depth of 0 counts as
    1, and 0 when none of them is relevant. *)
Theorem compute_first_relevant relevant query_id results_list depth :
  0 <= depth -> Z.of_nat (length results_list) < 2 ^ 64 - 1 ->
  compute relevant query_id results_list depth
  = match first_index (relevant query_id)
            (firstn (Z.to_nat (Z.max 1 depth)) results_list) with
    | Some i => one_over (Z.of_nat i + 1)
    | None => zero
    end.
Proof.
  intros Hd Hlen. unfold compute.
  rewrite compute_from_first_index by lia.
  replace (Z.max 1 depth - 1 + 1) with (Z.max 1 depth) by lia.
  destruct (first_index _ _); [f_equal; lia|reflexivity].
Qed.

Lemma compute_first_relevant_witness :
  compute unittest_relevant unittest_query unittest_results_list 5 = one_over (Z.of_nat 1 + 1).
Proof.
  apply (compute_first_relevant unittest_relevant unittest_query unittest_results_list 5).
  - lia.
  - vm_compute. reflexivity.
Defined.

(** X15: The depth is tested after the counter has moved past the first
    result: with a depth of 0 the first result is still looked at, and
    [compute] returns what it returns with a depth of 1. *)
Theorem compute_depth_zero relevant query_id results_list :
  compute relevant query_id results_list 0 = compute relevant query_id results_list 1
  /\ (forall result rest,
        results_list = result :: rest -> relevant query_id result = true ->
        compute relevant query_id results_list 0 = one_over 1).
Proof.
  unfold compute. split.
  - destruct results_list as [|result rest]; cbn [compute_from]; [reflexivity|].
    destruct (relevant query_id result); reflexivity.
  - intros result rest -> H. cbn [compute_from]. now rewrite H.
Qed.

(** ** printer *)

(** X16: [push_back] prints what [add_rsv] prints for each of the 8 lanes that
    is not 0, in lane order, with the impact last given to [set_score];
    lanes equal to 0 print nothing. *)
Theorem push_back_prints_postings this score cout document_ids :
  printer.push_back (printer.set_score this score) cout document_ids
  = fold_left (fun cout document => printer.add_rsv this cout document score)
      (filter (fun document => negb (document =? 0))
         (map (printer.each document_ids) (map Z.of_nat (seq 0 8))))
      cout.
Proof.
  unfold printer.push_back, printer.add_rsv, printer.set_score. cbn [printer.impact].
  generalize (map Z.of_nat (seq 0 8)). intros l. revert cout.
  induction l as [|which l IH]; intros cout; cbn [map filter fold_left]; [reflexivity|].
  destruct (printer.each document_ids which =? 0); cbn [negb fold_left]; apply IH.
Qed.

Lemma compute_depth_zero_witness :
  compute unittest_relevant unittest_query unittest_results_list 0
  = compute unittest_relevant unittest_query unittest_results_list 1.
Proof.
  apply (compute_depth_zero unittest_relevant unittest_query unittest_results_list).
Defined.

(** ** What encode leaves alone, and what decode never returns *)

Lemma mem_int_write_field_any m pos bits :
  0 <= pos -> pos / 8 + 8 <= Z.of_nat (length m) ->
  exists X, 0 <= X < 2 ^ (8 * (pos / 8 + 8))
    /\ mem_int (write_field m pos bits) = Z.lor (mem_int m) X.
Proof.
  intros Hp Hb. unfold write_field.
  assert (H0 : 0 <= pos / 8) by (apply Z.div_pos; lia).
  assert (Hu : 0 <= u64 (Z.shiftl bits (pos mod 8)) < 2 ^ 64)
    by (apply Z.mod_pos_bound; reflexivity).
  exists (Z.shiftl (u64 (Z.shiftl bits (pos mod 8))) (8 * (pos / 8))). split.
  - replace (8 * (pos / 8 + 8)) with (64 + 8 * (pos / 8)) by lia.
    apply shiftl_below; lia.
  - apply mem_int_or64_at; lia.
Qed.

Lemma encode_loop_frame : forall seq m into m' into',
  Forall valid seq -> 0 <= into -> into + stream_bits seq < 2 ^ 64 ->
  encode_loop m into seq = Ok (m', into') ->
  exists X, 0 <= X < 2 ^ (8 * reach into seq) /\ mem_int m' = Z.lor (mem_int m) X.
Proof.
  induction seq as [|N seq IH]; intros m into m' into' Hv Hi Hw E;
    cbn [encode_loop stream_bits reach] in *.
  - injection E as <- _. exists 0. rewrite Z.lor_0_r. cbn. split; [lia|reflexivity].
  - inversion Hv as [|? ? HN Hv']; subst.
    pose proof (codeword_bits_bounds N HN) as Hc.
    pose proof (unary_length_bounds N HN) as HU.
    pose proof (stream_bits_nonneg seq Hv') as Hs.
    pose proof (reach_nonneg seq (into + codeword_bits N)) as Hr.
    destruct (Z.lt_ge_cases (Z.of_nat (length m)) ((into + 2 * unary_length N + 1) / 8 + 8))
      as [Hout|Hin].
    { rewrite encode_value_out in E by (assumption || lia). discriminate. }
    rewrite (encode_value_sharp m into N HN Hi ltac:(lia) ltac:(lia)) in E. cbn [bind] in E.
    pose proof (div8_le (into + unary_length N) (into + 2 * unary_length N + 1) ltac:(lia)) as Hd.
    destruct (mem_int_write_field_any m (into + unary_length N) (zig_zag_of N)
                ltac:(lia) ltac:(lia)) as (X1 & HX1 & E1).
    set (m1 := write_field m (into + unary_length N) (zig_zag_of N)) in *.
    assert (Hl1 : length m1 = length m) by (apply length_write_field; lia).
    destruct (mem_int_write_field_any m1 (into + 2 * unary_length N + 1) (value_field_of N)
                ltac:(lia) ltac:(rewrite Hl1; lia)) as (X2 & HX2 & E2).
    destruct (IH _ (into + codeword_bits N) _ _ Hv' ltac:(lia) ltac:(lia) E) as (X3 & HX3 & E3).
    exists (Z.lor (Z.lor X1 X2) X3). split.
    + apply lor_below; [apply lor_below|].
      * eapply below_weaken; [exact HX1|lia].
      * eapply below_weaken; [exact HX2|lia].
      * eapply below_weaken; [exact HX3|lia].
    + rewrite E3, E2, E1. now rewrite !Z.lor_assoc.
Qed.

(** X17: [encode] changes no byte from the larger of the capacity and the
    footprint on, and keeps the size of the memory. *)
Theorem encode_frame m cap seq m' r :
  Forall valid seq -> stream_bits seq + 7 < 2 ^ 64 ->
  encode m cap seq = Ok (m', r) ->
  length m' = length m
  /\ skipn (Z.to_nat (Z.max cap (footprint seq))) m'
     = skipn (Z.to_nat (Z.max cap (footprint seq))) m.
Proof.
  intros Hv Hw E. unfold encode in E.
  destruct (memset0 m cap) as [m0|] eqn:E0; cbn [bind] in E; [|discriminate].
  destruct (encode_loop m0 0 seq) as [[m1 into1]|] eqn:E1; cbn [bind] in E; [|discriminate].
  injection E as <- _.
  pose proof (stream_bits_nonneg seq Hv) as Hs.
  pose proof (length_memset0 _ _ _ E0) as Hl0.
  assert (Hl1 : length m1 = length m0).
  { clear - E1. revert m0 m1 into1 E1. generalize 0. induction seq as [|N seq IH];
      intros into m0 m1 into1 E1; cbn [encode_loop] in E1.
    - now injection E1 as <- _.
    - destruct (encode_value m0 into N) as [[m2 into2]|] eqn:E2; cbn [bind] in E1; [|discriminate].
      apply length_encode_value in E2. apply IH in E1. congruence. }
  split; [congruence|].
  destruct (encode_loop_frame seq m0 0 m1 into1 Hv ltac:(lia) ltac:(lia) E1) as (X & HX & EX).
  assert (Hfp : reach 0 seq = footprint seq).
  { destruct seq as [|N seq]; [reflexivity|].
    rewrite reach_footprint by (assumption || discriminate || lia). reflexivity. }
  rewrite Hfp in HX.
  assert (Hcap : 0 <= cap).
  { unfold memset0, in_bounds in E0.
    destruct (0 <=? cap) eqn:Ec; [apply Z.leb_le in Ec; lia|].
    rewrite andb_false_r in E0. discriminate. }
  assert (Hf0 : 0 <= footprint seq) by (rewrite <- Hfp; apply reach_nonneg).
  set (n := Z.to_nat (Z.max cap (footprint seq))).
  apply le_combine_inj; [rewrite !length_skipn; lia|].
  apply Z.bits_inj'. intros i Hi.
  rewrite !mem_bit_skipn by lia. unfold mem_bit at 1. rewrite EX, Z.lor_spec.
  rewrite (bit_above X _ _ HX) by lia. rewrite orb_false_r.
  fold (mem_bit m0 (i + 8 * Z.of_nat n)).
  rewrite (mem_bit_memset0 m cap m0 _ E0) by lia.
  now rewrite (proj2 (Z.ltb_ge (i + 8 * Z.of_nat n) (8 * cap))) by lia.
Qed.

Lemma encode_frame_witness :
  length ([Byte.x45; Byte.x01] ++ repeat Byte.xff 14) = length (repeat Byte.xff 16)
  /\ skipn (Z.to_nat (Z.max 2 (footprint [1; 2; 3])))
       ([Byte.x45; Byte.x01] ++ repeat Byte.xff 14)
     = skipn (Z.to_nat (Z.max 2 (footprint [1; 2; 3]))) (repeat Byte.xff 16).
Proof.
  apply (encode_frame (repeat Byte.xff 16) 2 [1; 2; 3] _ 2).
  - repeat constructor; vm_compute; discriminate.
  - vm_compute. reflexivity.
  - vm_compute. reflexivity.
Defined.

Lemma shl_int_one_bit c top :
  shl_int 1 c = Ok top -> 0 <= c < 32 /\ Z.testbit (u64 top) c = true.
Proof.
  unfold shl_int. destruct (0 <=? c) eqn:E0; [|discriminate].
  destruct (c <? 32) eqn:E1; [|discriminate]. cbn [andb].
  apply Z.leb_le in E0. apply Z.ltb_lt in E1. intros [= <-]. split; [lia|].
  apply (forallb_range (fun c => Z.testbit (u64 (s32 (Z.shiftl 1 c))) c) 32 eq_refl c).
  lia.
Qed.

Lemma stored_integer_nonzero ib y top c :
  32 <= ib -> 0 <= c < 32 -> Z.testbit (u64 top) c = true ->
  1 <= Z.lor y (u64 top) mod 2 ^ ib < 2 ^ ib.
Proof.
  intros Hib Hc Hbit.
  pose proof (Z.mod_pos_bound (Z.lor y (u64 top)) (2 ^ ib) ltac:(apply Z.pow_pos_nonneg; lia)) as Hm.
  split; [|lia].
  destruct (Z.eq_dec (Z.lor y (u64 top) mod 2 ^ ib) 0) as [E|]; [|lia].
  assert (Hb : Z.testbit (Z.lor y (u64 top) mod 2 ^ ib) c = true).
  { rewrite Z.mod_pow2_bits_low by lia. rewrite Z.lor_spec, Hbit. apply orb_true_r. }
  rewrite E, Z.bits_0 in Hb. discriminate.
Qed.

Lemma read_value_nonzero ib m d binary d' x :
  32 <= ib -> read_value ib m d binary = Ok (d', x) -> 1 <= x < 2 ^ ib.
Proof.
  intros Hib. unfold read_value.
  destruct (64 <? u64 (bits_used d + binary)).
  - destruct (shl_u64 _ _) as [high|]; cbn [bind]; [|discriminate].
    destruct (fetch m d) as [d1|]; cbn [bind]; [|discriminate].
    destruct (shl_int 1 _) as [top|] eqn:Et; cbn [bind]; [|discriminate].
    destruct (shr_u64 _ _) as [v|]; cbn [bind]; [|discriminate].
    intros [= _ <-]. apply shl_int_one_bit in Et as [Hc Hbit].
    rewrite Z.lor_assoc. eapply stored_integer_nonzero; eassumption.
  - destruct (shl_int 1 _) as [top|] eqn:Et; cbn [bind]; [|discriminate].
    destruct (shr_u64 _ _) as [v|]; cbn [bind]; [|discriminate].
    intros [= _ <-]. apply shl_int_one_bit in Et as [Hc Hbit].
    eapply stored_integer_nonzero; eassumption.
Qed.

Lemma decode_loop_nonzero ib m : forall n total d total' d' out,
  32 <= ib -> decode_loop ib m total d n = Ok (total', d', out) ->
  Forall (fun v => 1 <= v < 2 ^ ib) out.
Proof.
  induction n as [|n IH]; intros total d total' d' out Hib; cbn [decode_loop].
  - intros [= _ _ <-]. constructor.
  - unfold decode_value, decode_integer.
    destruct (scan_unary m d) as [d1|]; cbn [bind]; [|discriminate].
    destruct (read_length m d1) as [[d2 binary]|]; cbn [bind]; [|discriminate].
    destruct (read_value ib m d2 binary) as [[d3 x]|] eqn:Ev; cbn [bind]; [|discriminate].
    destruct (decode_loop ib m _ d3 n) as [[[t4 d4] xs]|] eqn:El; cbn [bind]; [|discriminate].
    intros [= _ _ <-]. constructor.
    + eapply read_value_nonzero; eassumption.
    + eapply IH; eassumption.
Qed.

(** X18: Whatever the memory holds, [decode] never stores a 0: the leading bit
    it ORs into every integer makes each result at least 1, for an
    [integer] of 32 bits or more. *)
Theorem decode_never_zero ib n m source_length out :
  32 <= ib -> decode ib n m source_length = Ok out ->
  Forall (fun v => 1 <= v < 2 ^ ib) out.
Proof.
  intros Hib. unfold decode, decode_from, omap.
  destruct (load64 m 0) as [w|]; cbn [bind]; [|discriminate].
  destruct (decode_loop ib m 0 (mk_decoder 0 0 w 0) n) as [[[t d] xs]|] eqn:E;
    cbn [bind snd]; [|discriminate].
  intros [= <-]. eapply decode_loop_nonzero; eassumption.
Qed.

Lemma decode_never_zero_witness :
  Forall (fun v => 1 <= v < 2 ^ 32) [15517; 1; 1].
Proof.
  apply (decode_never_zero 32 3 ([Byte.xe8; Byte.x4e; Byte.x3e] ++ zeros 8) 0).
  - lia.
  - vm_compute. reflexivity.
Defined.

(** X19: A first word of zeros sends [decode] into a shift by 64: with the
    word empty it refills, counts 64 trailing zeros in the word it gets
    (word 0 again) and shifts by that count.  This is what decoding one
    integer from the zero-filled buffer of an empty sequence does. *)
Theorem decode_zero_word ib n m source_length :
  8 <= Z.of_nat (length m) -> peek64 m 0 = 0 -> (0 < n)%nat ->
  decode ib n m source_length = Undefined ShiftTooWide.
Proof.
  intros Hm Hw Hn. destruct n as [|n]; [lia|].
  unfold decode, decode_from, load64.
  rewrite in_bounds_true by lia. cbn [bind]. rewrite Hw.
  cbn [decode_loop]. unfold decode_value, decode_integer, scan_unary, fetch, load64.
  cbn [value source bits_used unary Z.eqb Z.mul set_unary].
  rewrite in_bounds_true by lia. cbn [bind]. rewrite Hw. reflexivity.
Qed.

Lemma decode_zero_word_witness :
  ('(m', source_length) <- encode (zeros 8) 8 [] ;; decode 32 1 m' source_length)
  = Undefined ShiftTooWide.
Proof.
  apply (decode_zero_word 32 1 (zeros 8) 0).
  - cbn. lia.
  - reflexivity.
  - lia.
Defined.

(** ** The round trip where it holds *)

(** X20: Encoding and decoding gives the sequence back when its integers are
    below 2^31 and its codewords take 63 bits at most: the stream then
    stays inside the first word, which is the only one the decoder reads
    correctly. *)
Theorem round_trip_first_word ib m cap seq :
  Forall small seq -> 31 <= ib -> stream_bits seq <= 63 ->
  (stream_bits seq + 7) / 8 <= cap <= Z.of_nat (length m) ->
  15 <= Z.of_nat (length m) ->
  ('(m', source_length) <- encode m cap seq ;;
   decode ib (length seq) m' source_length) = Ok seq.
Proof.
  intros Hs Hib Hb Hcap Hm.
  assert (Hvalid : Forall valid seq)
    by (eapply Forall_impl; [|exact Hs]; apply small_valid).
  assert (Hfits : Forall fits seq).
  { eapply Forall_impl; [|exact Hs]. unfold small, fits. intros; lia. }
  pose proof (stream_bits_nonneg seq Hvalid) as Hsb.
  assert (Hdiv : stream_bits seq / 8 < 8) by (apply Z.div_lt_upper_bound; lia).
  assert (Hbytes : 0 <= (stream_bits seq + 7) / 8) by (apply Z.div_pos; lia).
  assert (Hcover : stream_bits seq <= 8 * cap).
  { pose proof (Z.div_mod (stream_bits seq + 7) 8 ltac:(lia)).
    pose proof (Z.mod_pos_bound (stream_bits seq + 7) 8 ltac:(lia)). lia. }
  destruct (encode_effect m cap seq Hfits ltac:(lia) ltac:(lia) ltac:(lia))
    as (m' & E & Hlen & Hbits).
  rewrite E. cbn [bind].
  apply decode_low_bits; try assumption; [rewrite Hlen; lia|].
  pose proof (stream_code_bounds seq Hvalid) as Hsc.
  unfold peek64. cbn [Z.to_nat skipn]. rewrite le_combine_firstn.
  change (8 * Z.of_nat 8) with 64. fold (mem_int m').
  apply Z.bits_inj'. intros i Hi.
  destruct (Z.lt_ge_cases i (stream_bits seq)) as [Hlt|Hge].
  - rewrite !Z.mod_pow2_bits_low by lia. fold (mem_bit m' i).
    rewrite Hbits by lia. now rewrite (proj2 (Z.ltb_lt i (8 * cap))) by lia.
  - rewrite Z.mod_pow2_bits_high by lia. symmetry.
    apply (bit_above _ _ _ Hsc). lia.
Qed.

Lemma round_trip_first_word_witness :
  ('(m', source_length) <- encode (repeat Byte.xff 16) 8 [12345; 12345; 12345] ;;
   decode 32 (length [12345; 12345; 12345]) m' source_length)
  = Ok [12345; 12345; 12345].
Proof.
  apply (round_trip_first_word 32 (repeat Byte.xff 16) 8 [12345; 12345; 12345]).
  - repeat constructor; vm_compute; discriminate.
  - lia.
  - vm_compute. discriminate.
  - vm_compute. split; discriminate.
  - vm_compute. discriminate.
Defined.
